(** * libintx: the CUDA memory layer ([libintx/cuda/api/api.h]) and the
      kernel dispatch of [libintx/engine.h]

    A shallow embedding of the two headers.  Host and device memory are one
    store of blocks of bytes, each block tagged with the memory policy that
    allocated it; [size_t] values are integers with the wrap-around modulo
    [2^64] written out; a C++ exception is an outcome that carries the state
    in which it was thrown. *)

From Stdlib Require Import ZArith Lia Bool String Ascii.
From Stdlib Require Import Init.Byte.
From stdpp Require Import base decidable option list pretty.

Open Scope Z_scope.

(** ** [size_t] *)

Definition SIZE_MAX : Z := 2 ^ 64 - 1.

(** Conversion of a mathematical integer to [size_t]. *)
Definition size_t (z : Z) : Z := z mod 2 ^ 64.

(** Conversion of a [size_t] to [int] (two's complement, 32 bit). *)
Definition int (z : Z) : Z :=
  let r := z mod 2 ^ 32 in if r <? 2 ^ 31 then r else r - 2 ^ 32.

Definition is_size_t (z : Z) : Prop := 0 <= z <= SIZE_MAX.

(** ** Exceptions and outcomes *)

(** What the code throws: the two failures of the backend (an allocation
    that is refused, an operation that fails), [std::runtime_error], and
    [parameters_exceed_max_am] of engine.h. *)
Inductive exception : Type :=
| AllocationFailure
| BackendOperationFailure
| runtime_error (what : string)
| parameters_exceed_max_am (what : string).

(** Outcome of running a piece of code from a state of type [S]: normal
    return, an exception (with the state at the throw), a failed [assert],
    or undefined behaviour. *)
Inductive outcome (S A : Type) : Type :=
| Normal (a : A) (s : S)
| Raised (e : exception) (s : S)
| Aborted
| Undefined.
Arguments Normal {S A} a s.
Arguments Raised {S A} e s.
Arguments Aborted {S A}.
Arguments Undefined {S A}.

(** [P] holds of the state an outcome leaves behind, when it leaves one. *)
Definition on_state {S A} (P : S -> Prop) (o : outcome S A) : Prop :=
  match o with
  | Normal _ s | Raised _ s => P s
  | Aborted | Undefined => True
  end.

Definition comp (S A : Type) : Type := S -> outcome S A.

Definition ret {S A} (a : A) : comp S A := fun s => Normal a s.

Definition bind {S A B} (c : comp S A) (k : A -> comp S B) : comp S B :=
  fun s =>
    match c s with
    | Normal a s' => k a s'
    | Raised e s' => Raised e s'
    | Aborted => Aborted
    | Undefined => Undefined
    end.

Definition throw {S A} (e : exception) : comp S A := fun s => Raised e s.
Definition undefined {S A} : comp S A := fun _ => Undefined.
Definition abort {S A} : comp S A := fun _ => Aborted.
Definition gets {S A} (f : S -> A) : comp S A := fun s => Normal (f s) s.
Definition modify {S} (f : S -> S) : comp S unit := fun s => Normal tt (f s).

(** Run a computation on a component [T] of the state [S]. *)
Definition zoom {S T A} (proj : S -> T) (upd : T -> S -> S)
    (c : comp T A) : comp S A :=
  fun s =>
    match c (proj s) with
    | Normal a t => Normal a (upd t s)
    | Raised e t => Raised e (upd t s)
    | Aborted => Aborted
    | Undefined => Undefined
    end.

Declare Scope comp_scope.
Delimit Scope comp_scope with comp.
Notation "'let!' x ':=' c 'in' k" := (bind c (fun x => k))
  (at level 10, x name, c at level 200, k at level 200,
   format "'[v' 'let!'  x  ':='  c  'in' '/' k ']'") : comp_scope.
Open Scope comp_scope.

(** ** Memory *)

Inductive memory_t : Type := host_memory_t | device_memory_t.

Global Instance memory_t_eq_dec : EqDecision memory_t.
Proof. solve_decision. Defined.

(** A pointer is null ([None]) or a byte offset into a block. *)
Record ptr : Type := Ptr { ptr_block : nat; ptr_offset : Z }.
Definition pointer : Type := option ptr.
Definition nullptr : pointer := None.

Global Instance ptr_eq_dec : EqDecision ptr.
Proof. solve_decision. Defined.

Record block : Type := Block { owner : memory_t; bytes : list byte }.

(** The store: the blocks handed out so far ([None] once released), and the
    calls of the policies' [free] in the order they were made. *)
Record backend : Type := Backend {
  blocks : list (option block);
  free_calls : list (memory_t * pointer)
}.

Definition live (st : backend) (b : nat) : option block :=
  match blocks st !! b with
  | Some (Some blk) => Some blk
  | _ => None
  end.

Definition in_bounds (blk : block) (o n : Z) : Prop :=
  0 <= o /\ 0 <= n /\ o + n <= Z.of_nat (length (bytes blk)).

Global Instance in_bounds_dec blk o n : Decision (in_bounds blk o n).
Proof. unfold in_bounds. apply _. Defined.

(** The [n] bytes at [p], when [p] points to [n] readable bytes. *)
Definition load (st : backend) (p : pointer) (n : Z) : option (list byte) :=
  match p with
  | Some (Ptr b o) =>
      match live st b with
      | Some blk =>
          if decide (in_bounds blk o n)
          then Some (take (Z.to_nat n) (drop (Z.to_nat o) (bytes blk)))
          else None
      | None => None
      end
  | None => None
  end.

Definition splice (bs : list byte) (o : Z) (data : list byte) : list byte :=
  take (Z.to_nat o) bs ++ data ++ drop (Z.to_nat o + length data) bs.

(** The store after writing [data] at [p], when [p] points to that many
    writable bytes. *)
Definition store (st : backend) (p : pointer) (data : list byte)
    : option backend :=
  match p with
  | Some (Ptr b o) =>
      match live st b with
      | Some blk =>
          if decide (in_bounds blk o (Z.of_nat (length data)))
          then Some (Backend
                 (<[b := Some (Block (owner blk) (splice (bytes blk) o data))]>
                    (blocks st))
                 (free_calls st))
          else None
      | None => None
      end
  | None => None
  end.

(** Whether [p] points to [n] bytes of a block. *)
Definition writable (st : backend) (p : pointer) (n : Z) : bool :=
  match p with
  | Some (Ptr b o) =>
      match live st b with
      | Some blk => bool_decide (in_bounds blk o n)
      | None => false
      end
  | None => false
  end.

(** What host code can dereference: a pointer into a block of host
    memory.  Device memory is not addressable by the host. *)
Definition host_addressable (st : backend) (p : pointer) : bool :=
  match p with
  | Some (Ptr b _) =>
      match live st b with
      | Some blk => bool_decide (owner blk = host_memory_t)
      | None => false
      end
  | None => false
  end.

(** A read and a write made by host code. *)
Definition host_load (st : backend) (p : pointer) (n : Z)
    : option (list byte) :=
  if host_addressable st p then load st p n else None.

Definition host_store (st : backend) (p : pointer) (data : list byte)
    : option backend :=
  if host_addressable st p then store st p data else None.

(** Two ranges of [n] bytes share a byte. *)
Definition overlaps (p q : pointer) (n : Z) : bool :=
  match p, q with
  | Some (Ptr b1 o1), Some (Ptr b2 o2) =>
      bool_decide (b1 = b2) && (o1 <? o2 + n) && (o2 <? o1 + n)
  | _, _ => false
  end.

(** Pointer arithmetic in bytes. *)
Definition ptr_add (p : pointer) (k : Z) : pointer :=
  match p with
  | Some (Ptr b o) => Some (Ptr b (o + k))
  | None => None
  end.

Section Backend.

(** What the device runtime decides: whether a request of [n] bytes is
    granted in a given store, and the bytes found in a block that was
    just handed out (by block and offset). *)
Variable grants : memory_t -> Z -> backend -> bool.
Variable junk : nat -> nat -> byte.
(** And whether a copy is carried out ([None]) or fails, and then what
    it leaves in the destination. *)
Variable faults : pointer -> pointer -> Z -> backend -> option (list byte).

Definition uninitialised (b : nat) (n : Z) : list byte :=
  map (junk b) (seq 0 (Z.to_nat n)).

(** Modelled from the spec: [host_memory_t::allocate] and
    [device_memory_t::allocate] are declared in api.h and defined
    elsewhere.  [allocate(n)] returns a raw block of [n] bytes, never seen
    before and of unspecified content, or fails with an allocation
    failure. *)
Definition memory_allocate (M : memory_t) (n : Z) : comp backend pointer :=
  fun st =>
    if grants M n st then
      let b := length (blocks st) in
      Normal (Some (Ptr b 0))
             (Backend (blocks st ++ [Some (Block M (uninitialised b n))])
                      (free_calls st))
    else Raised AllocationFailure st.

(** Modelled from the spec: [host_memory_t::free] and
    [device_memory_t::free] are declared in api.h and defined elsewhere.
    [free] releases a block previously returned by the same policy's
    [allocate] and is a no-op on null; anything else is undefined.  Every
    call is recorded. *)
Definition memory_free (M : memory_t) (p : pointer) : comp backend unit :=
  fun st =>
    let calls := free_calls st ++ [(M, p)] in
    match p with
    | None => Normal tt (Backend (blocks st) calls)
    | Some (Ptr b o) =>
        match live st b with
        | Some blk =>
            if decide (o = 0 /\ owner blk = M)
            then Normal tt (Backend (<[b := None]> (blocks st)) calls)
            else Undefined
        | None => Undefined
        end
    end.

(** Modelled from the spec: [memcpy(dst, src, bytes)] is declared in
    api.h and defined elsewhere.  It byte-copies [n] bytes from [src] to
    [dst], in either address space; copying no byte touches nothing; the
    two ranges must not overlap; a copy that the backend fails to carry
    out throws the backend failure, and what is then found in the
    destination range is unspecified. *)
Definition memcpy (dst src : pointer) (n : Z) : comp backend unit :=
  fun st =>
    if decide (n = 0) then Normal tt st
    else if overlaps dst src n || negb (writable st dst n) then Undefined
    else match load st src n with
         | Some data =>
             match faults dst src n st with
             | None =>
                 match store st dst data with
                 | Some st' => Normal tt st'
                 | None => Undefined
                 end
             | Some found =>
                 match store st dst (take (Z.to_nat n) found) with
                 | Some st' => Raised BackendOperationFailure st'
                 | None => Undefined
                 end
             end
         | None => Undefined
         end.

(** Modelled from the spec: the policies' [memset(dst, value, bytes)] are
    declared in api.h and defined elsewhere; every byte of the range is
    set to [value]. *)
Definition memory_memset (M : memory_t) (dst : pointer) (value : byte)
    (n : Z) : comp backend unit :=
  fun st =>
    if decide (n = 0) then Normal tt st
    else if decide (0 <= n) then
      match store st dst (replicate (Z.to_nat n) value) with
      | Some st' => Normal tt st'
      | None => Undefined
      end
    else Undefined.

End Backend.

(** ** [vector<T, memory_t>] *)

(** [std::unique_ptr<T[], void(*)(void*)>]: the owned pointer and the
    deleter, which is the [free] of a memory policy. *)
Record unique_ptr : Type := UniquePtr { get : pointer; get_deleter : memory_t }.

Record vector : Type := Vector {
  size_ : Z;
  capacity_ : Z;
  data_ : unique_ptr
}.

(** The state a member function runs in: the object and the store. *)
Record world : Type := World { this : vector; cuda : backend }.

Definition on_cuda {A} (c : comp backend A) : comp world A :=
  zoom cuda (fun st w => World (this w) st) c.

Definition on_this (f : vector -> vector) : comp world unit :=
  modify (fun w => World (f (this w)) (cuda w)).

Definition set_size (n : Z) (v : vector) : vector :=
  Vector n (capacity_ v) (data_ v).
Definition set_capacity (n : Z) (v : vector) : vector :=
  Vector (size_ v) n (data_ v).
Definition set_data (p : pointer) (v : vector) : vector :=
  Vector (size_ v) (capacity_ v) (UniquePtr p (get_deleter (data_ v))).

Definition std_swap {A} (a b : A) : A * A := (b, a).

(** [swap] touches the two objects only. *)
Definition swap (lhs rhs : vector) : vector * vector :=
  let '(s1, s2) := std_swap (size_ lhs) (size_ rhs) in
  let '(c1, c2) := std_swap (capacity_ lhs) (capacity_ rhs) in
  let '(d1, d2) := std_swap (data_ lhs) (data_ rhs) in
  (Vector s1 c1 d1, Vector s2 c2 d2).

Section Vector.

(** [sizeof(T)]; an object of type [T] is its [sizeof(T)] bytes. *)
Variable sizeof_T : Z.
(** Whether [assert] is compiled out. *)
Variable NDEBUG : bool.
Variable grants : memory_t -> Z -> backend -> bool.
Variable junk : nat -> nat -> byte.
Variable faults : pointer -> pointer -> Z -> backend -> option (list byte).

Definition allocate (M : memory_t) (n : Z) : comp backend pointer :=
  memory_allocate grants junk M (size_t (n * sizeof_T)).

(** [copy(begin, end, it)], for two pointers into one array. *)
Definition copy (first last it : pointer) : comp backend unit :=
  match first, last with
  | Some (Ptr b1 o1), Some (Ptr b2 o2) =>
      if decide (b1 = b2)
      then memcpy faults it first
             (size_t (sizeof_T * size_t ((o2 - o1) / sizeof_T)))
      else undefined
  | None, None => memcpy faults it first (size_t (sizeof_T * 0))
  | _, _ => undefined
  end.

(** [vector()] *)
Definition vector_default (M : memory_t) : vector :=
  Vector 0 0 (UniquePtr nullptr M).

Definition data : comp world pointer := gets (fun w => get (data_ (this w))).
Definition size : comp world Z := gets (fun w => size_ (this w)).
Definition capacity : comp world Z := gets (fun w => capacity_ (this w)).

(** [begin()] and [end()] *)
Definition begin : comp world pointer := data.
Definition end_ : comp world pointer :=
  let! p := data in
  let! n := size in
  ret (ptr_add p (n * sizeof_T)).

(** [data_.reset(p)]: take [p], then hand the old pointer, when there is
    one, to the deleter. *)
Definition reset (p : pointer) : comp world unit :=
  let! old := gets (fun w => data_ (this w)) in
  let! _ := on_this (set_data p) in
  match get old with
  | Some _ => on_cuda (memory_free (get_deleter old) (get old))
  | None => ret tt
  end.

(** The destructor: the one of [data_]. *)
Definition destroy : comp world unit :=
  let! d := gets (fun w => data_ (this w)) in
  match get d with
  | Some _ => on_cuda (memory_free (get_deleter d) (get d))
  | None => ret tt
  end.

Definition reserve (M : memory_t) (n : Z) : comp world unit :=
  let! cap := capacity in
  if cap <? n then
    let! p := on_cuda (allocate M n) in
    let! _ := reset p in
    on_this (set_capacity n)
  else ret tt.

Definition resize (M : memory_t) (n : Z) : comp world unit :=
  let! _ := reserve M n in
  on_this (set_size n).

Definition clear : comp world unit := on_this (set_size 0).

(** [assign(const T *data, size_t size)] *)
Definition assign (M : memory_t) (src : pointer) (n : Z) : comp world unit :=
  let! _ := resize M n in
  let! dst := data in
  on_cuda (memcpy faults dst src (size_t (sizeof_T * n))).

(** [assign(const T *begin, const T *end)]; comparing or subtracting
    pointers into different arrays is undefined. *)
Definition assign_range (M : memory_t) (first last : pointer)
    : comp world unit :=
  match first, last with
  | None, None => assign M first 0
  | Some (Ptr b1 o1), Some (Ptr b2 o2) =>
      if decide (b1 = b2) then
        if negb NDEBUG && (o2 <? o1) then abort
        else assign M first (size_t ((o2 - o1) / sizeof_T))
      else undefined
  | _, _ => undefined
  end.

Definition memset (M : memory_t) (value : byte) : comp world unit :=
  let! p := data in
  let! n := size in
  on_cuda (memory_memset M p value (size_t (sizeof_T * n))).

Definition assign_zero (M : memory_t) (n : Z) : comp world unit :=
  let! _ := resize M n in
  memset M x00.

(** [data_[idx] = v], a write by host code. *)
Definition subscript_store (idx : Z) (v : list byte) : comp world unit :=
  let! p := data in
  on_cuda (fun st =>
    match host_store st (ptr_add p (idx * sizeof_T)) v with
    | Some st' => Normal tt st'
    | None => Undefined
    end).


Definition capacity_exceeded : exception :=
  runtime_error "cuda::vector::capacity exceeded".

Definition push_back (v : list byte) : comp world unit :=
  let! sz := size in
  let! cap := capacity in
  if cap <? size_t (sz + 1) then throw capacity_exceeded
  else
    let! _ := subscript_store sz v in
    on_this (fun o => set_size (size_t (size_ o + 1)) o).

(** A constructor: the body runs on a default-constructed object (every
    constructor delegates to [vector()]); when the body throws, the
    object is destroyed and no vector results. *)
Definition construct (M : memory_t) (body : comp world unit)
    : comp backend vector :=
  fun st =>
    match body (World (vector_default M) st) with
    | Normal _ w => Normal (this w) (cuda w)
    | Raised e w =>
        match destroy w with
        | Normal _ w' => Raised e (cuda w')
        | Raised _ _ | Aborted => Aborted
        | Undefined => Undefined
        end
    | Aborted => Aborted
    | Undefined => Undefined
    end.

(** [std::copy(data.begin(), data.end(), this->data())], element by
    element, by host code. *)
Definition std_copy (elts : list (list byte)) (dst : pointer)
    : comp backend unit :=
  fun st =>
    match elts with
    | [] => Normal tt st
    | _ =>
        match host_store st dst (concat elts) with
        | Some st' => Normal tt st'
        | None => Undefined
        end
    end.

(** [explicit vector(size_t size)] *)
Definition vector_of_size (M : memory_t) (n : Z) : comp backend vector :=
  construct M (resize M n).

(** [vector(const std::initializer_list<T> &data)]; host memory only. *)
Definition vector_of_initializer_list (elts : list (list byte))
    : comp backend vector :=
  construct host_memory_t
    (let! _ := resize host_memory_t (size_t (Z.of_nat (length elts))) in
     let! dst := data in
     on_cuda (std_copy elts dst)).

(** [vector(const T *data, size_t size)] *)
Definition vector_of_array (M : memory_t) (src : pointer) (n : Z)
    : comp backend vector :=
  construct M (assign M src n).

(** [template<typename M> vector(const vector<T,M> &v)]: [M] is the
    policy of the new vector, [v] may have any policy. *)
Definition vector_of_vector (M : memory_t) (v : vector)
    : comp backend vector :=
  vector_of_array M (get (data_ v)) (size_ v).

End Vector.

(** ** [detail::make_shared]: arrays shared by reference counting *)

(** [std::shared_ptr]: the control block holds the managed pointer, the
    deleter and the number of references; a reference names its control
    block. *)
Record control_block : Type := ControlBlock {
  managed : pointer;
  deleter : memory_t;
  use_count : nat
}.

Record shared_ptr : Type := SharedPtr { sp_get : pointer; sp_control : nat }.

Record shared_world : Type := SharedWorld {
  controls : list control_block;
  sp_cuda : backend
}.

Definition on_sp_cuda {A} (c : comp backend A) : comp shared_world A :=
  zoom sp_cuda (fun st w => SharedWorld (controls w) st) c.

Section Shared.

Variable sizeof_T : Z.
Variable grants : memory_t -> Z -> backend -> bool.
Variable junk : nat -> nat -> byte.

(** [std::shared_ptr<T>(ptr, &memory_t::free)] *)
Definition shared_ptr_of (p : pointer) (d : memory_t)
    : comp shared_world shared_ptr :=
  fun w =>
    Normal (SharedPtr p (length (controls w)))
           (SharedWorld (controls w ++ [ControlBlock p d 1]) (sp_cuda w)).

Definition make_shared (M : memory_t) (n : Z)
    : comp shared_world shared_ptr :=
  let! p := on_sp_cuda (allocate sizeof_T grants junk M n) in
  shared_ptr_of p M.

(** [host::make_shared] and [device::make_shared] *)
Definition host_make_shared : Z -> comp shared_world shared_ptr :=
  make_shared host_memory_t.
Definition device_make_shared : Z -> comp shared_world shared_ptr :=
  make_shared device_memory_t.

(** Copy construction of a reference. *)
Definition shared_ptr_copy (r : shared_ptr) : comp shared_world shared_ptr :=
  fun w =>
    match controls w !! sp_control r with
    | Some (ControlBlock p d (S k)) =>
        Normal r (SharedWorld
                    (<[sp_control r := ControlBlock p d (S (S k))]> (controls w))
                    (sp_cuda w))
    | _ => Undefined
    end.

(** Destruction of a reference: the last one out calls the deleter on
    the managed pointer. *)
Definition shared_ptr_drop (r : shared_ptr) : comp shared_world unit :=
  fun w =>
    match controls w !! sp_control r with
    | Some (ControlBlock p d (S k)) =>
        let w' := SharedWorld
                    (<[sp_control r := ControlBlock p d k]> (controls w))
                    (sp_cuda w) in
        match k with
        | O => on_sp_cuda (memory_free d p) w'
        | S _ => Normal tt w'
        end
    | _ => Undefined
    end.

(** A program that copies and drops references: the references it holds
    are numbered by position. *)
Inductive event : Type := ev_copy (i : nat) | ev_drop (i : nat).

Definition step (e : event) (held : list shared_ptr)
    : comp shared_world (list shared_ptr) :=
  match e with
  | ev_copy i =>
      match held !! i with
      | Some r => let! r' := shared_ptr_copy r in ret (held ++ [r'])
      | None => undefined
      end
  | ev_drop i =>
      match held !! i with
      | Some r => let! _ := shared_ptr_drop r in ret (delete i held)
      | None => undefined
      end
  end.

Fixpoint run (evs : list event) (held : list shared_ptr)
    : comp shared_world (list shared_ptr) :=
  match evs with
  | [] => ret held
  | e :: evs' => let! held' := step e held in run evs' held'
  end.

(** Every event names a reference that is held when it happens. *)
Fixpoint well_formed (evs : list event) (holders : nat) : bool :=
  match evs with
  | [] => true
  | ev_copy i :: evs' => (i <? holders)%nat && well_formed evs' (S holders)
  | ev_drop i :: evs' => (i <? holders)%nat && well_formed evs' (pred holders)
  end.

End Shared.

(** ** Kernel dispatch ([libintx/engine.h]) *)

Module Engine.
Section Engine.

(** [LMAX] and [XMAX] come from [libintx/config.h]. *)
Variables LMAX XMAX : Z.
Variable NDEBUG : bool.

(** The [Kernel] template argument is a pointer to a kernel object, null
    when [None]. *)
Variable kernel_t : Type.
Definition Kernel : Type := option kernel_t.
Definition Factory : Type := unit -> Kernel.

Definition to_string (z : Z) : string := pretty z.

(** [parameters_exceed_max_am(int AB, int X)] *)
Definition make_parameters_exceed_max_am (AB X : Z) : exception :=
  parameters_exceed_max_am
    ("Parameters" +:+
     " AB=" +:+ to_string AB +:+
     " X=" +:+ to_string X +:+
     "exceed " +:+
     "LIBINTX_MAX_L=" +:+ to_string LMAX +:+ " " +:+
     "LIBINTX_MAX_X=" +:+ to_string XMAX).

Definition make_index_sequence (n : Z) : list Z :=
  map Z.of_nat (seq 0 (Z.to_nat n)).

(** Modelled from the spec: [make_array] comes from [libintx/array.h].
    It builds the two-dimensional table with one entry per pair of the
    two index sequences, the entry at [(AB, X)] being [g AB X]. *)
Definition make_array {A} (g : Z -> Z -> A) (ABs Xs : list Z)
    : list (list A) :=
  map (fun AB => map (fun X => g AB X) Xs) ABs.

Definition make_ab_x_kernel_seq (f : Z -> Z -> Kernel) (AB X : Z)
    (ABs Xs : list Z) : outcome unit Kernel :=
  let kernel_table : list (list Factory) :=
    make_array (fun AB X => fun _ : unit => f AB X) ABs Xs in
  if (AB <? Z.of_nat (length ABs)) && (X <? Z.of_nat (length Xs)) then
    match kernel_table !! Z.to_nat AB with
    | Some row =>
        match row !! Z.to_nat X with
        | Some factory => Normal (factory tt) tt
        | None => Undefined
        end
    | None => Undefined
    end
  else Raised (make_parameters_exceed_max_am (int AB) (int X)) tt.

Definition make_ab_x_kernel (f : Z -> Z -> Kernel) (AB X : Z)
    : outcome unit Kernel :=
  let ABs := make_index_sequence (LMAX * 2 + 1) in
  let Xs := make_index_sequence (XMAX + 1) in
  match make_ab_x_kernel_seq f AB X ABs Xs with
  | Normal kernel _ =>
      let null := match kernel with Some _ => false | None => true end in
      if negb NDEBUG && null then Aborted
      else if null
           then Raised (make_parameters_exceed_max_am (int AB) (int X)) tt
           else Normal kernel tt
  | other => other
  end.

End Engine.
End Engine.

(** ** Invariants of a vector and its interface as data *)

(** [size_ <= capacity_] *)
Definition invariant (v : vector) : Prop := size_ v <= capacity_ v.

(** The two counters are [size_t] values. *)
Definition well_typed (v : vector) : Prop :=
  is_size_t (size_ v) /\ is_size_t (capacity_ v).

(** The deleter of [v] can release its storage: the pointer is null, or
    it is the start of a live block of the deleter's policy. *)
Definition releasable (st : backend) (v : vector) : Prop :=
  match get (data_ v) with
  | None => True
  | Some (Ptr b o) =>
      match live st b with
      | Some blk => o = 0 /\ owner blk = get_deleter (data_ v)
      | None => False
      end
  end.

Global Instance releasable_dec st v : Decision (releasable st v).
Proof.
  unfold releasable.
  destruct (get (data_ v)) as [[b o]|]; [destruct (live st b)|]; apply _.
Defined.

(** The storage of [v] is what its capacity says: no block when the
    pointer is null, and otherwise a live block of the deleter's policy,
    held from its start, of [capacity_] elements. *)
Definition owns_storage (sizeof_T : Z) (st : backend) (v : vector) : Prop :=
  match get (data_ v) with
  | None => capacity_ v = 0
  | Some (Ptr b o) =>
      match live st b with
      | Some blk =>
          o = 0 /\ owner blk = get_deleter (data_ v) /\
          Z.of_nat (length (bytes blk)) = capacity_ v * sizeof_T
      | None => False
      end
  end.

Global Instance owns_storage_dec sizeof_T st v :
  Decision (owns_storage sizeof_T st v).
Proof.
  unfold owns_storage.
  destruct (get (data_ v)) as [[b o]|]; [destruct (live st b)|]; apply _.
Defined.

(** The bytes of the [n] elements at [p]; no element is read when [n] is
    zero. *)
Definition elements (sizeof_T : Z) (st : backend) (p : pointer) (n : Z)
    : option (list byte) :=
  if decide (n = 0) then Some [] else load st p (n * sizeof_T).

(** The member functions that change a vector. *)
Inductive method : Type :=
| call_reserve (n : Z)
| call_resize (n : Z)
| call_clear
| call_assign (src : pointer) (n : Z)
| call_assign_range (first last : pointer)
| call_assign_zero (n : Z)
| call_memset (value : byte)
| call_push_back (v : list byte).

(** The constructors. *)
Inductive constructor : Type :=
| new_default
| new_of_size (n : Z)
| new_of_initializer_list (elts : list (list byte))
| new_of_array (src : pointer) (n : Z)
| new_of_vector (v : vector).

Section Interface.

Variable sizeof_T : Z.
Variable NDEBUG : bool.
Variable grants : memory_t -> Z -> backend -> bool.
Variable junk : nat -> nat -> byte.
Variable faults : pointer -> pointer -> Z -> backend -> option (list byte).

Definition call (M : memory_t) (m : method) : comp world unit :=
  match m with
  | call_reserve n => reserve sizeof_T grants junk M n
  | call_resize n => resize sizeof_T grants junk M n
  | call_clear => clear
  | call_assign src n => assign sizeof_T grants junk faults M src n
  | call_assign_range first last =>
      assign_range sizeof_T NDEBUG grants junk faults M first last
  | call_assign_zero n => assign_zero sizeof_T grants junk M n
  | call_memset value => memset sizeof_T M value
  | call_push_back v => push_back sizeof_T v
  end.

(** The initializer-list constructor exists for host memory only. *)
Definition new (M : memory_t) (c : constructor) : comp backend vector :=
  match c with
  | new_default => ret (vector_default M)
  | new_of_size n => vector_of_size sizeof_T grants junk M n
  | new_of_initializer_list elts =>
      vector_of_initializer_list sizeof_T grants junk elts
  | new_of_array src n => vector_of_array sizeof_T grants junk faults M src n
  | new_of_vector v => vector_of_vector sizeof_T grants junk faults M v
  end.

(** The arguments of type [size_t] are [size_t] values. *)
Definition method_typed (m : method) : Prop :=
  match m with
  | call_reserve n | call_resize n | call_assign _ n | call_assign_zero n =>
      is_size_t n
  | _ => True
  end.

End Interface.

(** Two device runtimes to run the code on: one that grants every request
    and one that grants none; fresh blocks hold zeroes; copies are carried
    out, or every copy fails having written nothing but zeroes. *)
Definition grant_all : memory_t -> Z -> backend -> bool := fun _ _ _ => true.
Definition grant_none : memory_t -> Z -> backend -> bool := fun _ _ _ => false.
Definition zeroes : nat -> nat -> byte := fun _ _ => x00.
Definition no_fault : pointer -> pointer -> Z -> backend -> option (list byte) :=
  fun _ _ _ _ => None.
Definition all_fault : pointer -> pointer -> Z -> backend -> option (list byte) :=
  fun _ _ n _ => Some (replicate (Z.to_nat n) x00).

(** ** What a member function may touch *)

(** The block a vector uses as storage, if any. *)
Definition storage_block (v : vector) : option nat :=
  match get (data_ v) with
  | Some (Ptr b _) => Some b
  | None => None
  end.

(** From [w] to [w']: the deleter is kept; the storage pointer is kept or
    is the start of the first block handed out since; [free] was not
    called, or was called once, by the deleter, on the old storage, which
    was not null; and every block that is the storage neither before nor
    after is as it was. *)
Definition footprint (w w' : world) : Prop :=
  get_deleter (data_ (this w')) = get_deleter (data_ (this w)) /\
  (get (data_ (this w')) = get (data_ (this w)) \/
   get (data_ (this w')) = Some (Ptr (length (blocks (cuda w))) 0)) /\
  (free_calls (cuda w') = free_calls (cuda w) \/
   get (data_ (this w)) <> nullptr /\
   free_calls (cuda w') =
     free_calls (cuda w) ++
       [(get_deleter (data_ (this w)), get (data_ (this w)))]) /\
  (forall b,
     storage_block (this w) <> Some b ->
     storage_block (this w') <> Some b ->
     live (cuda w') b = live (cuda w) b).

(** A piece of code that stays within its footprint, keeps the storage
    releasable by the deleter of policy [M], also when it throws, has
    changed nothing when it throws the allocation failure, throws nothing
    but that and the backend failure, and fails no assertion. *)
Definition well_behaved (M : memory_t) (body : comp world unit) : Prop :=
  forall w : world,
    match body w with
    | Normal _ w' =>
        footprint w w' /\
        (releasable (cuda w) (this w) -> get_deleter (data_ (this w)) = M ->
         releasable (cuda w') (this w'))
    | Raised e w' =>
        footprint w w' /\
        (releasable (cuda w) (this w) -> get_deleter (data_ (this w)) = M ->
         releasable (cuda w') (this w')) /\
        (e = AllocationFailure /\ w' = w \/ e = BackendOperationFailure)
    | Aborted => False
    | Undefined => True
    end.

(** ** Programs over a vector and what they may rely on *)

(** The bytes of the storage block of a vector. *)
Definition storage_bytes (st : backend) (v : vector) : list byte :=
  match get (data_ v) with
  | Some (Ptr b _) =>
      match live st b with
      | Some blk => bytes blk
      | None => []
      end
  | None => []
  end.

Section Programs.

Variable sizeof_T : Z.

(** [push_back] of each element of a list, in order. *)
Fixpoint push_back_all (vs : list (list byte)) : comp world unit :=
  match vs with
  | [] => ret tt
  | v :: vs' => let! _ := push_back sizeof_T v in push_back_all vs'
  end.

(** A vector of policy [M] in good standing: the counters are [size_t]
    values with [size <= capacity], the storage is a block of the policy
    with room for exactly [capacity] elements, and that many elements take
    fewer than [SIZE_MAX] bytes. *)
Definition valid (M : memory_t) (st : backend) (v : vector) : Prop :=
  well_typed v /\ invariant v /\ owns_storage sizeof_T st v /\
  get_deleter (data_ v) = M /\ capacity_ v * sizeof_T < SIZE_MAX.

Global Instance valid_dec M st v : Decision (valid M st v).
Proof. unfold valid, well_typed, invariant, is_size_t. apply _. Defined.

(** The element counts a call passes take fewer than [SIZE_MAX] bytes; a
    range is passed in order; a pushed element has [sizeof(T)] bytes. *)
Definition method_fits (m : method) : Prop :=
  match m with
  | call_reserve n | call_resize n | call_assign _ n | call_assign_zero n =>
      0 <= n /\ n * sizeof_T < SIZE_MAX
  | call_assign_range (Some (Ptr _ o1)) (Some (Ptr _ o2)) =>
      o1 <= o2 /\ o2 - o1 < SIZE_MAX
  | call_push_back v => Z.of_nat (length v) = sizeof_T
  | _ => True
  end.

(** The calls that dereference the storage in host code. *)
Definition host_only (m : method) : bool :=
  match m with
  | call_push_back _ => true
  | _ => false
  end.

(** The calls that read no memory but the vector's own. *)
Definition self_contained (m : method) : bool :=
  match m with
  | call_assign _ _ | call_assign_range _ _ => false
  | _ => true
  end.

End Programs.

(** Vectors of one-byte elements to run the code on: a host vector that
    is full, a host vector with room, next to a block of the device, and
    a device vector with room. *)
Definition full : world :=
  World (Vector 2 2 (UniquePtr (Some (Ptr 0 0)) host_memory_t))
        (Backend [Some (Block host_memory_t [x01; x02])] []).
Definition roomy : world :=
  World (Vector 1 3 (UniquePtr (Some (Ptr 0 0)) host_memory_t))
        (Backend [Some (Block host_memory_t [x0a; x0b; x0c]);
                  Some (Block device_memory_t [x07])] []).

(** * Properties *)

(** ** Kernel dispatch *)

Section EngineFacts.

Import Engine.

Lemma int_small (z : Z) : 0 <= z < 2 ^ 31 -> int z = z.
Proof.
  intros Hz. unfold int.
  rewrite Z.mod_small by lia.
  destruct (Z.ltb_spec z (2 ^ 31)); lia.
Qed.

Lemma length_make_index_sequence (n : Z) :
  length (make_index_sequence n) = Z.to_nat n.
Proof. unfold make_index_sequence. now rewrite length_map, length_seq. Qed.

Lemma lookup_make_index_sequence (n i : Z) :
  0 <= i < n -> make_index_sequence n !! Z.to_nat i = Some i.
Proof.
  intros Hi. unfold make_index_sequence.
  rewrite list_lookup_fmap, lookup_seq_lt by lia.
  simpl. f_equal. lia.
Qed.

Lemma lookup_make_array {A} (g : Z -> Z -> A) (n m i j : Z) :
  0 <= i < n -> 0 <= j < m ->
  (make_array g (make_index_sequence n) (make_index_sequence m)
     !! Z.to_nat i) ≫= (fun row => row !! Z.to_nat j) = Some (g i j).
Proof.
  intros Hi Hj. unfold make_array.
  rewrite list_lookup_fmap, lookup_make_index_sequence by lia. simpl.
  now rewrite list_lookup_fmap, lookup_make_index_sequence by lia.
Qed.

Lemma make_ab_x_kernel_seq_spec LMAX XMAX kernel_t
    (f : Z -> Z -> Kernel kernel_t) (AB X : Z) :
  0 <= LMAX -> 0 <= XMAX -> 0 <= AB -> 0 <= X ->
  make_ab_x_kernel_seq LMAX XMAX kernel_t f AB X
    (make_index_sequence (LMAX * 2 + 1)) (make_index_sequence (XMAX + 1)) =
  if (AB <=? 2 * LMAX) && (X <=? XMAX) then Normal (f AB X) tt
  else Raised (make_parameters_exceed_max_am LMAX XMAX (int AB) (int X)) tt.
Proof.
  intros HL HX HAB HXX. unfold make_ab_x_kernel_seq.
  rewrite !length_make_index_sequence.
  destruct (Z.ltb_spec AB (Z.of_nat (Z.to_nat (LMAX * 2 + 1))));
    destruct (Z.leb_spec AB (2 * LMAX)); try lia; simpl; [|reflexivity].
  destruct (Z.ltb_spec X (Z.of_nat (Z.to_nat (XMAX + 1))));
    destruct (Z.leb_spec X XMAX); try lia; simpl; [|reflexivity].
  assert (Hlk := lookup_make_array (fun AB X (_ : unit) => f AB X)
                   (LMAX * 2 + 1) (XMAX + 1) AB X ltac:(lia) ltac:(lia)).
  destruct (make_array _ _ _ !! Z.to_nat AB) as [row|]; simpl in Hlk;
    [|discriminate Hlk].
  unfold Factory. now rewrite Hlk.
Qed.

(** C1, as amended.  For [AB] in [0, 2*LMAX] and [X] in [0, XMAX],
    [make_ab_x_kernel(f, AB, X)] returns the kernel [f(AB, X)] of the
    table entry when that kernel is not null; when it is null no kernel
    is returned: the [assert] fails, or with [NDEBUG] the function throws
    [parameters_exceed_max_am].  For [AB] or [X] outside that range it
    throws [parameters_exceed_max_am] without calling [f].  These are
    the only failures.  The message is built from [AB] and [X] converted
    to [int] and from [LMAX] and [XMAX]; it names [AB] and [X] themselves
    when they are below [2^31]. *)
Theorem make_ab_x_kernel_spec LMAX XMAX NDEBUG kernel_t
    (f : Z -> Z -> Kernel kernel_t) (AB X : Z) :
  0 <= LMAX -> 0 <= XMAX -> is_size_t AB -> is_size_t X ->
  make_ab_x_kernel LMAX XMAX NDEBUG kernel_t f AB X =
    (if (AB <=? 2 * LMAX) && (X <=? XMAX) then
       match f AB X with
       | Some k => Normal (Some k) tt
       | None =>
           if NDEBUG
           then Raised (make_parameters_exceed_max_am LMAX XMAX
                          (int AB) (int X)) tt
           else Aborted
       end
     else Raised (make_parameters_exceed_max_am LMAX XMAX
                    (int AB) (int X)) tt) /\
  (AB < 2 ^ 31 -> X < 2 ^ 31 ->
   make_parameters_exceed_max_am LMAX XMAX (int AB) (int X) =
     parameters_exceed_max_am
       ("Parameters AB=" +:+ pretty AB +:+ " X=" +:+ pretty X +:+
        "exceed LIBINTX_MAX_L=" +:+ pretty LMAX +:+
        " LIBINTX_MAX_X=" +:+ pretty XMAX)).
Proof.
  intros HL HX [HAB _] [HXX _]. split.
  - unfold make_ab_x_kernel.
    rewrite make_ab_x_kernel_seq_spec by assumption.
    destruct ((AB <=? 2 * LMAX) && (X <=? XMAX)); [|reflexivity].
    destruct (f AB X) as [k|]; destruct NDEBUG; reflexivity.
  - intros HAB' HX'. rewrite !int_small by lia. reflexivity.
Qed.

Lemma make_ab_x_kernel_spec_witness :
  make_ab_x_kernel 2 3 true Z (fun AB X => Some (10 * AB + X)) 4 3 =
    Normal (Some 43) tt /\
  make_ab_x_kernel 2 3 true Z (fun AB X => Some (10 * AB + X)) 5 0 =
    Raised (parameters_exceed_max_am
              "Parameters AB=5 X=0exceed LIBINTX_MAX_L=2 LIBINTX_MAX_X=3") tt.
Proof.
  split.
  - apply (make_ab_x_kernel_spec 2 3 true Z
             (fun AB X => Some (10 * AB + X)) 4 3);
      unfold is_size_t, SIZE_MAX; lia.
  - pose proof (make_ab_x_kernel_spec 2 3 true Z
             (fun AB X => Some (10 * AB + X)) 5 0) as [H1 H2];
      try (unfold is_size_t, SIZE_MAX; lia).
    rewrite H1. simpl. rewrite H2 by lia. reflexivity.
Defined.

(** C1, as stated, fails: with [AB] and [X] in range and a constructor
    [f] that returns a null kernel, [make_ab_x_kernel] throws, or fails
    its [assert].  Besides, the message is built from [AB] and [X] as
    [int]: for [AB = 2^32], out of range, it reads [AB=0]. *)
Lemma make_ab_x_kernel_null_kernel :
  (0 <= 0 <= 2 * 2) /\ (0 <= 0 <= 3) /\
  make_ab_x_kernel 2 3 true unit (fun _ _ => None) 0 0 =
    Raised (parameters_exceed_max_am
              "Parameters AB=0 X=0exceed LIBINTX_MAX_L=2 LIBINTX_MAX_X=3") tt /\
  make_ab_x_kernel 2 3 false unit (fun _ _ => None) 0 0 = Aborted /\
  make_ab_x_kernel 2 3 true unit (fun _ _ => Some tt) (2 ^ 32) 0 =
    Raised (parameters_exceed_max_am
              "Parameters AB=0 X=0exceed LIBINTX_MAX_L=2 LIBINTX_MAX_X=3") tt.
Proof. repeat split; try lia; reflexivity. Qed.

End EngineFacts.

(** ** The vector *)

Ltac proj_comp :=
  cbn [this cuda size_ capacity_ data_ get get_deleter
       set_size set_capacity set_data ptr_add].

Ltac run_comp :=
  unfold call, assign_zero, memset, assign, resize, reserve, clear, push_back,
    reset, subscript_store, data, size, capacity, on_this, on_cuda, zoom,
    bind, gets, modify, ret, throw, abort, undefined;
  proj_comp.

Section VectorFacts.

Variable sizeof_T : Z.
Variable NDEBUG : bool.
Variable grants : memory_t -> Z -> backend -> bool.
Variable junk : nat -> nat -> byte.
Variable faults : pointer -> pointer -> Z -> backend -> option (list byte).

Lemma size_t_small (z : Z) : is_size_t z -> size_t z = z.
Proof. unfold is_size_t, SIZE_MAX, size_t. intros. apply Z.mod_small. lia. Qed.

Lemma size_t_range (z : Z) : is_size_t (size_t z).
Proof.
  unfold is_size_t, SIZE_MAX, size_t.
  pose proof (Z.mod_pos_bound z (2 ^ 64)). lia.
Qed.

Lemma length_splice (bs data : list byte) (o : Z) :
  0 <= o -> o + Z.of_nat (length data) <= Z.of_nat (length bs) ->
  length (splice bs o data) = length bs.
Proof.
  intros Ho Hb. unfold splice.
  rewrite !length_app, length_take, length_drop. lia.
Qed.

Lemma splice_read (bs data : list byte) (o : Z) :
  0 <= o -> o + Z.of_nat (length data) <= Z.of_nat (length bs) ->
  take (length data) (drop (Z.to_nat o) (splice bs o data)) = data.
Proof.
  intros Ho Hb. unfold splice.
  rewrite drop_app_length' by (rewrite length_take; lia).
  now rewrite take_app_length.
Qed.

Lemma live_insert (st : backend) (b : nat) (blk blk' : block) calls :
  live st b = Some blk ->
  live (Backend (<[b := Some blk']> (blocks st)) calls) b = Some blk'.
Proof.
  unfold live. cbn [blocks]. intros H.
  destruct (blocks st !! b) as [[x|]|] eqn:E; try discriminate.
  rewrite list_lookup_insert_eq by (eapply lookup_lt_Some; eauto).
  reflexivity.
Qed.

(** Writing in bounds succeeds, and what was written is read back. *)
Lemma store_in_bounds (st : backend) (b : nat) (o : Z) (blk : block)
    (data : list byte) :
  live st b = Some blk ->
  in_bounds blk o (Z.of_nat (length data)) ->
  exists st',
    store st (Some (Ptr b o)) data = Some st' /\
    load st' (Some (Ptr b o)) (Z.of_nat (length data)) = Some data /\
    free_calls st' = free_calls st /\
    length (blocks st') = length (blocks st).
Proof.
  intros Hlive Hin. unfold store. rewrite Hlive.
  rewrite decide_True by assumption.
  eexists. split; [reflexivity|].
  destruct Hin as (Ho & _ & Hb).
  repeat split.
  - unfold load. erewrite live_insert by eassumption.
    cbn [bytes].
    rewrite decide_True
      by (unfold in_bounds; cbn [bytes]; rewrite length_splice; lia).
    rewrite Nat2Z.id. now rewrite splice_read.
  - cbn [blocks]. now rewrite length_insert.
Qed.

(** Host code reads and writes the blocks of host memory, and no block
    of device memory. *)
Lemma host_store_host (st : backend) (b : nat) (o : Z) (blk : block)
    (data : list byte) :
  live st b = Some blk -> owner blk = host_memory_t ->
  host_store st (Some (Ptr b o)) data = store st (Some (Ptr b o)) data.
Proof.
  intros Hlive Hown. unfold host_store, host_addressable.
  now rewrite Hlive, bool_decide_true.
Qed.


Lemma host_store_device (st : backend) (b : nat) (o : Z) (blk : block)
    (data : list byte) :
  live st b = Some blk -> owner blk = device_memory_t ->
  host_store st (Some (Ptr b o)) data = None.
Proof.
  intros Hlive Hown. unfold host_store, host_addressable.
  rewrite Hlive, bool_decide_false; [reflexivity|]. now rewrite Hown.
Qed.


Lemma host_store_store (st st' : backend) (p : pointer) (data : list byte) :
  host_store st p data = Some st' -> store st p data = Some st'.
Proof. unfold host_store. now destruct (host_addressable st p). Qed.

Lemma host_load_load (st : backend) (p : pointer) (n : Z) (data : list byte) :
  host_load st p n = Some data -> load st p n = Some data.
Proof. unfold host_load. now destruct (host_addressable st p). Qed.

(** The member functions, as equations on the state. *)

Lemma push_back_eq (v : list byte) (w : world) :
  push_back sizeof_T v w =
    if capacity_ (this w) <? size_t (size_ (this w) + 1)
    then Raised capacity_exceeded w
    else match host_store (cuda w)
                 (ptr_add (get (data_ (this w))) (size_ (this w) * sizeof_T))
                 v with
         | Some st' =>
             Normal tt (World (set_size (size_t (size_ (this w) + 1))
                                        (this w)) st')
         | None => Undefined
         end.
Proof.
  run_comp. destruct (_ <? _); [reflexivity|].
  proj_comp. destruct (host_store _ _ _); reflexivity.
Qed.

Lemma reserve_eq (M : memory_t) (n : Z) (w : world) :
  reserve sizeof_T grants junk M n w =
    if capacity_ (this w) <? n then
      match memory_allocate grants junk M (size_t (n * sizeof_T)) (cuda w)
      with
      | Normal p st1 =>
          match get (data_ (this w)) with
          | Some _ =>
              match memory_free (get_deleter (data_ (this w)))
                                (get (data_ (this w))) st1 with
              | Normal _ st2 =>
                  Normal tt (World (set_capacity n (set_data p (this w))) st2)
              | Raised e st2 => Raised e (World (set_data p (this w)) st2)
              | Aborted => Aborted
              | Undefined => Undefined
              end
          | None =>
              Normal tt (World (set_capacity n (set_data p (this w))) st1)
          end
      | Raised e st1 => Raised e (World (this w) st1)
      | Aborted => Aborted
      | Undefined => Undefined
      end
    else Normal tt w.
Proof.
  run_comp. destruct (_ <? _); [|reflexivity].
  unfold allocate. destruct (memory_allocate _ _ _ _ _) as [p st1|e st1| |];
    try reflexivity.
  proj_comp. destruct (get (data_ (this w))); [|reflexivity].
  proj_comp. destruct (memory_free _ _ _); reflexivity.
Qed.

Lemma resize_eq (M : memory_t) (n : Z) (w : world) :
  resize sizeof_T grants junk M n w =
    match reserve sizeof_T grants junk M n w with
    | Normal _ w' => Normal tt (World (set_size n (this w')) (cuda w'))
    | other => other
    end.
Proof.
  unfold resize, bind, on_this, modify.
  destruct (reserve _ _ _ _ _ _) as [[] ?|? ?| |]; reflexivity.
Qed.

Lemma assign_eq (M : memory_t) (src : pointer) (n : Z) (w : world) :
  assign sizeof_T grants junk faults M src n w =
    match resize sizeof_T grants junk M n w with
    | Normal _ w' =>
        match memcpy faults (get (data_ (this w'))) src (size_t (sizeof_T * n))
                     (cuda w') with
        | Normal _ st => Normal tt (World (this w') st)
        | Raised e st => Raised e (World (this w') st)
        | Aborted => Aborted
        | Undefined => Undefined
        end
    | other => other
    end.
Proof.
  unfold assign, bind, data, gets, on_cuda, zoom.
  destruct (resize _ _ _ _ _ _) as [[] w'|? ?| |]; try reflexivity.
  destruct (memcpy faults _ _ _ _) as [[] ?|? ?| |]; reflexivity.
Qed.

Lemma live_app (st : backend) (b : nat) (blk : block) extra calls :
  live st b = Some blk ->
  live (Backend (blocks st ++ extra) calls) b = Some blk.
Proof.
  unfold live. cbn [blocks].
  destruct (blocks st !! b) as [[x|]|] eqn:E; try discriminate.
  intros [= ->]. now rewrite (lookup_app_l_Some _ _ _ _ E).
Qed.

Lemma live_fresh (l : list (option block)) (blk : block) calls :
  live (Backend (l ++ [Some blk]) calls) (length l) = Some blk.
Proof.
  unfold live. cbn [blocks].
  now rewrite lookup_app_r, Nat.sub_diag by lia.
Qed.

Lemma live_length (st : backend) (b : nat) (blk : block) :
  live st b = Some blk -> (b < length (blocks st))%nat.
Proof.
  unfold live. destruct (blocks st !! b) as [x|] eqn:E; [|discriminate].
  intros _. eapply lookup_lt_Some; eauto.
Qed.

Lemma live_release_other (l : list (option block)) (b b' : nat)
    calls calls' :
  b <> b' ->
  live (Backend (<[b := None]> l) calls) b' = live (Backend l calls') b'.
Proof.
  intros Hne. unfold live. cbn [blocks].
  now rewrite list_lookup_insert_ne by assumption.
Qed.

Lemma live_release (l : list (option block)) (b : nat) calls :
  live (Backend (<[b := None]> l) calls) b = None.
Proof.
  unfold live. cbn [blocks].
  destruct (decide (b < length l)%nat).
  - now rewrite list_lookup_insert_eq by assumption.
  - rewrite list_insert_ge by lia.
    now rewrite lookup_ge_None_2 by lia.
Qed.

Lemma owns_releasable (st : backend) (v : vector) :
  owns_storage sizeof_T st v -> releasable st v.
Proof.
  unfold owns_storage, releasable.
  destruct (get (data_ v)) as [[b o]|]; [|auto].
  destruct (live st b); tauto.
Qed.

(** The deleter releases the storage of a vector, also after further
    blocks were handed out. *)
Lemma free_releasable (st : backend) (v : vector) (b : nat) (o : Z) extra :
  releasable st v ->
  get (data_ v) = Some (Ptr b o) ->
  memory_free (get_deleter (data_ v)) (Some (Ptr b o))
              (Backend (blocks st ++ extra) (free_calls st)) =
    Normal tt (Backend (<[b := None]> (blocks st ++ extra))
                       (free_calls st
                          ++ [(get_deleter (data_ v), Some (Ptr b o))])).
Proof.
  unfold releasable. intros Hrel Hp. rewrite Hp in Hrel.
  destruct (live st b) as [blk|] eqn:Hlive; [|contradiction].
  destruct Hrel as (-> & Hown).
  unfold memory_free. erewrite live_app by eassumption.
  cbn [free_calls blocks]. now rewrite decide_True by auto.
Qed.

Lemma reserve_keep (M : memory_t) (n : Z) (w : world) :
  n <= capacity_ (this w) ->
  reserve sizeof_T grants junk M n w = Normal tt w.
Proof.
  intros Hn. rewrite reserve_eq.
  destruct (Z.ltb_spec (capacity_ (this w)) n); [lia|reflexivity].
Qed.

Lemma reserve_refused (M : memory_t) (n : Z) (w : world) :
  capacity_ (this w) < n ->
  grants M (size_t (n * sizeof_T)) (cuda w) = false ->
  reserve sizeof_T grants junk M n w = Raised AllocationFailure w.
Proof.
  intros Hn Hg. rewrite reserve_eq.
  destruct (Z.ltb_spec (capacity_ (this w)) n); [|lia].
  unfold memory_allocate. rewrite Hg. now destruct w.
Qed.

(** A regrowth: the fresh block is appended to the store, the old
    block, if any, is released and its release recorded. *)
Lemma reserve_grow (M : memory_t) (n : Z) (w : world) :
  capacity_ (this w) < n ->
  grants M (size_t (n * sizeof_T)) (cuda w) = true ->
  releasable (cuda w) (this w) ->
  let st := cuda w in
  let b := length (blocks st) in
  let fresh := blocks st ++
    [Some (Block M (uninitialised junk b (size_t (n * sizeof_T))))] in
  reserve sizeof_T grants junk M n w =
    Normal tt
      (World (Vector (size_ (this w)) n
                (UniquePtr (Some (Ptr b 0)) (get_deleter (data_ (this w)))))
         (match get (data_ (this w)) with
          | Some (Ptr b0 o0) =>
              Backend (<[b0 := None]> fresh)
                      (free_calls st ++
                         [(get_deleter (data_ (this w)), Some (Ptr b0 o0))])
          | None => Backend fresh (free_calls st)
          end)).
Proof.
  intros Hn Hg Hrel. cbv zeta. rewrite reserve_eq.
  destruct (Z.ltb_spec (capacity_ (this w)) n); [|lia].
  unfold memory_allocate. rewrite Hg.
  destruct (get (data_ (this w))) as [[b0 o0]|] eqn:Hp; [|reflexivity].
  erewrite free_releasable by eassumption. reflexivity.
Qed.

Lemma length_uninitialised (b : nat) (n : Z) :
  length (uninitialised junk b n) = Z.to_nat n.
Proof. unfold uninitialised. now rewrite length_map, length_seq. Qed.

Lemma reserve_releasable (M : memory_t) (n : Z) (w w' : world) :
  releasable (cuda w) (this w) ->
  get_deleter (data_ (this w)) = M ->
  reserve sizeof_T grants junk M n w = Normal tt w' ->
  releasable (cuda w') (this w') /\ get_deleter (data_ (this w')) = M.
Proof.
  intros Hrel HM.
  destruct (Z.le_gt_cases n (capacity_ (this w))) as [Hle|Hgt].
  - rewrite reserve_keep by assumption. now intros [= <-].
  - destruct (grants M (size_t (n * sizeof_T)) (cuda w)) eqn:Hg.
    + rewrite reserve_grow by assumption. intros [= <-].
      cbn [this cuda data_ get_deleter]. split; [|assumption].
      unfold releasable. cbn [data_ get get_deleter].
      destruct (get (data_ (this w))) as [[b0 o0]|] eqn:Hp.
      * assert (b0 <> length (blocks (cuda w))) as Hne.
        { unfold releasable in Hrel. rewrite Hp in Hrel.
          destruct (live (cuda w) b0) eqn:Hl; [|contradiction].
          apply live_length in Hl. lia. }
        rewrite (live_release_other _ _ _ _ (free_calls (cuda w)))
          by assumption.
        rewrite live_fresh. auto.
      * rewrite live_fresh. auto.
    + rewrite reserve_refused by assumption. discriminate.
Qed.

(** What [reserve] does to the two counters, on return and on a throw. *)
Lemma reserve_outcome (M : memory_t) (n : Z) (w : world) :
  match reserve sizeof_T grants junk M n w with
  | Normal _ w' =>
      size_ (this w') = size_ (this w) /\
      n <= capacity_ (this w') /\
      capacity_ (this w) <= capacity_ (this w') /\
      (capacity_ (this w') = capacity_ (this w) \/ capacity_ (this w') = n)
  | Raised _ w' =>
      size_ (this w') = size_ (this w) /\
      capacity_ (this w') = capacity_ (this w)
  | _ => True
  end.
Proof.
  rewrite reserve_eq.
  destruct (Z.ltb_spec (capacity_ (this w)) n); [|lia].
  destruct (memory_allocate _ _ _ _ _) as [p st1|e st1| |]; proj_comp; auto.
  destruct (get (data_ (this w))); proj_comp; [|lia].
  destruct (memory_free _ _ _) as [[] ?|? ?| |]; proj_comp; auto; lia.
Qed.

(** C4, as amended.  [reserve(n)] with [n <= capacity] changes nothing.
    [reserve(n)] with [n > capacity] asks the policy for
    [n * sizeof(T) mod 2^64] bytes.  When the policy refuses, the
    allocation failure is thrown and nothing has changed.  When it
    grants, the storage becomes the block just handed out, never seen
    before and holding what the policy left in it (nothing is copied
    into it), of [n] elements provided [n * sizeof(T)] is at most
    [SIZE_MAX]; the old block, if any, is handed to the deleter and is
    gone, and the capacity is [n], the size unchanged.  Hence
    [reserve(n)] followed by [reserve(n2)], [n <= n2], ends with a
    capacity of at least [n2], and it does end when the policy grants
    every request. *)
Theorem reserve_spec (M : memory_t) (n : Z) (w : world) :
  (n <= capacity_ (this w) ->
   reserve sizeof_T grants junk M n w = Normal tt w) /\
  (capacity_ (this w) < n ->
   grants M (size_t (n * sizeof_T)) (cuda w) = false ->
   reserve sizeof_T grants junk M n w = Raised AllocationFailure w) /\
  (capacity_ (this w) < n ->
   grants M (size_t (n * sizeof_T)) (cuda w) = true ->
   releasable (cuda w) (this w) ->
   let b := length (blocks (cuda w)) in
   let content := uninitialised junk b (size_t (n * sizeof_T)) in
   exists v' st',
     reserve sizeof_T grants junk M n w = Normal tt (World v' st') /\
     size_ v' = size_ (this w) /\
     capacity_ v' = n /\
     get (data_ v') = Some (Ptr b 0) /\
     live (cuda w) b = None /\
     live st' b = Some (Block M content) /\
     (0 <= n * sizeof_T <= SIZE_MAX ->
      Z.of_nat (length content) = n * sizeof_T) /\
     (forall b0 o0, get (data_ (this w)) = Some (Ptr b0 o0) ->
        live st' b0 = None /\
        free_calls st' =
          free_calls (cuda w) ++
            [(get_deleter (data_ (this w)), Some (Ptr b0 o0))]) /\
     (get (data_ (this w)) = None -> free_calls st' = free_calls (cuda w))) /\
  (forall n2 w2, n <= n2 ->
     (let! _ := reserve sizeof_T grants junk M n in
      reserve sizeof_T grants junk M n2) w = Normal tt w2 ->
     n2 <= capacity_ (this w2)) /\
  (forall n2, n <= n2 ->
     (forall k st, grants M k st = true) ->
     releasable (cuda w) (this w) ->
     get_deleter (data_ (this w)) = M ->
     exists w2,
       (let! _ := reserve sizeof_T grants junk M n in
        reserve sizeof_T grants junk M n2) w = Normal tt w2).
Proof.
  split; [apply reserve_keep|].
  split; [apply reserve_refused|].
  split; [|split].
  - intros Hn Hg Hrel b content.
    pose proof (reserve_grow M n w Hn Hg Hrel) as Heq. cbv zeta in Heq.
    assert (Hfresh : live (cuda w) b = None).
    { unfold live. subst b. now rewrite lookup_ge_None_2 by lia. }
    assert (Hlen : 0 <= n * sizeof_T <= SIZE_MAX ->
                   Z.of_nat (length content) = n * sizeof_T).
    { intros Hno. subst content. rewrite length_uninitialised.
      rewrite size_t_small by exact Hno. lia. }
    unfold releasable in Hrel.
    destruct (get (data_ (this w))) as [[b0 o0]|] eqn:Hp;
      (eexists _, _; split; [exact Heq|]); cbn [size_ capacity_ data_ get];
      repeat (split; [first [reflexivity | assumption]|]).
    + assert (b0 <> b) as Hne by (intros ->; now rewrite Hfresh in Hrel).
      split; [|split; [exact Hlen|split; [|discriminate]]].
      * rewrite (live_release_other _ _ _ _ (free_calls (cuda w)))
          by assumption.
        apply live_fresh.
      * intros ? ? [= <- <-]. split; [apply live_release|reflexivity].
    + split; [apply live_fresh|].
      split; [exact Hlen|split; [discriminate|reflexivity]].
  - intros n2 w2 _. unfold bind.
    pose proof (reserve_outcome M n w) as H1.
    destruct (reserve sizeof_T grants junk M n w) as [[] w1|? ?| |];
      try discriminate.
    pose proof (reserve_outcome M n2 w1) as H2. intros Heq.
    rewrite Heq in H2. tauto.
  - intros n2 _ Hall Hrel HM. unfold bind.
    assert (Hret : forall k u, releasable (cuda u) (this u) ->
              exists u', reserve sizeof_T grants junk M k u = Normal tt u').
    { intros k u Hu.
      destruct (Z.le_gt_cases k (capacity_ (this u))).
      - rewrite reserve_keep by assumption. eauto.
      - rewrite reserve_grow by auto. eauto. }
    destruct (Hret n w Hrel) as [w1 H1]. rewrite H1.
    apply Hret. eapply reserve_releasable; eauto.
Qed.

(** C5.  Whenever [resize(n)] returns, the size is [n] and the capacity
    is at least [n].  It returns, touching only the size, when
    [n <= capacity]; it returns when the policy grants the block that
    [reserve] asks for; and when the policy refuses, the allocation
    failure is thrown and nothing has changed. *)
Theorem resize_spec (M : memory_t) (n : Z) (w : world) :
  (forall w', resize sizeof_T grants junk M n w = Normal tt w' ->
     size_ (this w') = n /\ n <= capacity_ (this w')) /\
  (n <= capacity_ (this w) ->
   resize sizeof_T grants junk M n w =
     Normal tt (World (set_size n (this w)) (cuda w))) /\
  (capacity_ (this w) < n ->
   grants M (size_t (n * sizeof_T)) (cuda w) = true ->
   releasable (cuda w) (this w) ->
   exists w', resize sizeof_T grants junk M n w = Normal tt w') /\
  (capacity_ (this w) < n ->
   grants M (size_t (n * sizeof_T)) (cuda w) = false ->
   resize sizeof_T grants junk M n w = Raised AllocationFailure w).
Proof.
  rewrite resize_eq. repeat split.
  - pose proof (reserve_outcome M n w) as Hr.
    destruct (reserve _ _ _ _ _ _) as [[] w1|? ?| |]; try discriminate.
    now injection H as <-.
  - pose proof (reserve_outcome M n w) as Hr.
    destruct (reserve _ _ _ _ _ _) as [[] w1|? ?| |]; try discriminate.
    injection H as <-. cbn [this capacity_ set_size]. tauto.
  - intros Hn. now rewrite reserve_keep.
  - intros Hn Hg Hrel. rewrite reserve_grow by assumption. eauto.
  - intros Hn Hg. now rewrite reserve_refused.
Qed.

Lemma load_length (st : backend) (p : pointer) (n : Z) (data : list byte) :
  load st p n = Some data -> Z.of_nat (length data) = n.
Proof.
  unfold load. destruct p as [[b o]|]; [|discriminate].
  destruct (live st b) as [blk|]; [|discriminate].
  destruct (decide _) as [(Ho & Hn & Hb)|]; [|discriminate].
  intros [= <-]. rewrite length_take, length_drop. lia.
Qed.

(** Reading depends on the block read only. *)
Lemma load_live (st st' : backend) (b : nat) (o n : Z) :
  live st' b = live st b ->
  load st' (Some (Ptr b o)) n = load st (Some (Ptr b o)) n.
Proof. unfold load. now intros ->. Qed.

(** A vector that owns its storage holds [size] readable elements. *)
Lemma elements_owned (st : backend) (v : vector) :
  0 < sizeof_T -> 0 <= size_ v -> invariant v ->
  owns_storage sizeof_T st v ->
  exists elts, elements sizeof_T st (get (data_ v)) (size_ v) = Some elts.
Proof.
  intros Hpos Hsz Hinv Howns. unfold elements.
  destruct (decide (size_ v = 0)); [eauto|].
  unfold owns_storage in Howns. unfold invariant in Hinv.
  destruct (get (data_ v)) as [[b o]|]; [|lia].
  unfold load. destruct (live st b) as [blk|]; [|contradiction].
  destruct Howns as (-> & _ & Hlen).
  rewrite decide_True by (unfold in_bounds; nia). eauto.
Qed.

Lemma owns_capacity_nonneg (st : backend) (v : vector) :
  0 < sizeof_T -> owns_storage sizeof_T st v -> 0 <= capacity_ v.
Proof.
  unfold owns_storage. intros Hpos Howns.
  destruct (get (data_ v)) as [[b o]|]; [|lia].
  destruct (live st b); [|contradiction]. nia.
Qed.

(** Writing at most as many bytes as a range holds succeeds. *)
Lemma store_within (st : backend) (b : nat) (o n : Z) (blk : block)
    (data : list byte) :
  live st b = Some blk -> in_bounds blk o n ->
  Z.of_nat (length data) <= n ->
  exists st', store st (Some (Ptr b o)) data = Some st'.
Proof.
  intros Hlive (Ho & Hn & Hb) Hlen.
  destruct (store_in_bounds st b o blk data Hlive) as (st' & Hst & _).
  { unfold in_bounds. lia. }
  eauto.
Qed.

(** A copy between ranges that do not overlap, from readable bytes to a
    range of a live block: it is carried out, and the destination then
    holds the bytes of the source, or the backend fails. *)
Lemma memcpy_spec (b : nat) (o : Z) (blk : block) (src : pointer) (n : Z)
    (st : backend) (data : list byte) :
  n <> 0 ->
  live st b = Some blk -> in_bounds blk o n ->
  load st src n = Some data ->
  overlaps (Some (Ptr b o)) src n = false ->
  match memcpy faults (Some (Ptr b o)) src n st with
  | Normal _ st' =>
      faults (Some (Ptr b o)) src n st = None /\
      store st (Some (Ptr b o)) data = Some st' /\
      load st' (Some (Ptr b o)) n = Some data
  | Raised e st' =>
      e = BackendOperationFailure /\
      exists found,
        faults (Some (Ptr b o)) src n st = Some found /\
        store st (Some (Ptr b o)) (take (Z.to_nat n) found) = Some st'
  | _ => False
  end.
Proof.
  intros Hn Hlive Hin Hsrc Hov. unfold memcpy.
  rewrite decide_False by assumption. rewrite Hov.
  unfold writable. rewrite Hlive, bool_decide_true by assumption.
  cbn [negb orb]. rewrite Hsrc.
  pose proof (load_length _ _ _ _ Hsrc) as Hlen.
  destruct (faults _ _ _ _) as [found|].
  - destruct (store_within st b o n blk (take (Z.to_nat n) found) Hlive Hin)
      as [st' Hst].
    { rewrite length_take. destruct Hin as (_ & ? & _). lia. }
    rewrite Hst. split; [reflexivity|]. eauto.
  - destruct (store_in_bounds st b o blk data Hlive) as (st' & Hst & Hld & _).
    { now rewrite Hlen. }
    rewrite Hst. rewrite Hlen in Hld. auto.
Qed.

(** [assign] from an array of [n] elements that does not overlap the
    storage, on a vector that owns the storage its capacity says: when it
    returns, the vector has size [n] and its elements are the bytes of
    the array; it throws when the policy refuses the block a regrowth
    needs or when the backend fails to copy; nothing else happens. *)
Lemma assign_reproduces (M : memory_t) (src : pointer) (n : Z) (w : world)
    (elts : list byte) :
  0 < sizeof_T -> is_size_t n -> n * sizeof_T <= SIZE_MAX ->
  owns_storage sizeof_T (cuda w) (this w) ->
  elements sizeof_T (cuda w) src n = Some elts ->
  overlaps (get (data_ (this w))) src (n * sizeof_T) = false ->
  match assign sizeof_T grants junk faults M src n w with
  | Normal _ w' =>
      size_ (this w') = n /\
      elements sizeof_T (cuda w') (get (data_ (this w'))) (size_ (this w'))
        = Some elts
  | Raised e w' =>
      e = AllocationFailure /\ capacity_ (this w) < n /\
        grants M (size_t (n * sizeof_T)) (cuda w) = false
      \/ e = BackendOperationFailure /\
         exists dst st, faults dst src (n * sizeof_T) st <> None
  | _ => False
  end.
Proof.
  intros Hpos [Hn0 Hn1] Hfit Howns Hsrc Hov.
  pose proof (owns_capacity_nonneg _ _ Hpos Howns) as Hcap0.
  assert (Hbytes : size_t (sizeof_T * n) = n * sizeof_T).
  { rewrite Z.mul_comm. apply size_t_small. unfold is_size_t. nia. }
  rewrite assign_eq, resize_eq. unfold elements in Hsrc.
  destruct (decide (n = 0)) as [->|Hnz].
  - injection Hsrc as <-. rewrite reserve_keep by lia.
    unfold memcpy. rewrite Hbytes, decide_True by lia.
    proj_comp. split; [reflexivity|].
    unfold elements. now rewrite decide_True.
  - pose proof (load_length _ _ _ _ Hsrc) as Hlen.
    destruct (Z.le_gt_cases n (capacity_ (this w))) as [Hle|Hgt].
    + rewrite reserve_keep by assumption. proj_comp.
      unfold owns_storage in Howns.
      destruct (get (data_ (this w))) as [[b o]|] eqn:Hp; [|lia].
      destruct (live (cuda w) b) as [blk|] eqn:Hlive; [|contradiction].
      destruct Howns as (-> & Hown & Hblk).
      rewrite Hbytes.
      pose proof (memcpy_spec b 0 blk src (n * sizeof_T) (cuda w) elts)
        as Hcpy.
      destruct (memcpy faults _ _ _ _) as [[] st'|e st'| |];
        try (apply Hcpy; try assumption; unfold in_bounds; nia).
      * destruct Hcpy as (_ & _ & Hld);
          try assumption; [nia|unfold in_bounds; nia|].
        proj_comp. split; [reflexivity|].
        unfold elements. rewrite decide_False by assumption.
        rewrite Hp. exact Hld.
      * destruct Hcpy as (-> & found & Hf & _);
          try assumption; [nia|unfold in_bounds; nia|].
        right. split; [reflexivity|].
        exists (Some (Ptr b 0)), (cuda w). now rewrite Hf.
    + destruct (grants M (size_t (n * sizeof_T)) (cuda w)) eqn:Hg.
      2:{ rewrite reserve_refused by assumption. left. auto. }
      rewrite reserve_grow by auto using owns_releasable. proj_comp.
      set (b' := length (blocks (cuda w))).
      set (content := uninitialised junk b' (size_t (n * sizeof_T))).
      set (st2 := match get (data_ (this w)) with
                  | Some _ => _ | None => _ end).
      assert (Hnew : live st2 b' = Some (Block M content)).
      { subst st2. unfold owns_storage in Howns.
        destruct (get (data_ (this w))) as [[b0 o0]|]; [|apply live_fresh].
        destruct (live (cuda w) b0) as [blk0|] eqn:Hl0; [|contradiction].
        apply live_length in Hl0.
        rewrite (live_release_other _ _ _ _ (free_calls (cuda w)))
          by (subst b'; lia).
        apply live_fresh. }
      destruct src as [[bs os]|]; [|discriminate].
      assert (Hbs : (bs < b')%nat).
      { unfold load in Hsrc.
        destruct (live (cuda w) bs) as [blks|] eqn:Hls; [|discriminate].
        now apply live_length in Hls. }
      assert (Hold : load st2 (Some (Ptr bs os)) (n * sizeof_T) = Some elts).
      { rewrite <- Hsrc. apply load_live.
        unfold load in Hsrc.
        destruct (live (cuda w) bs) as [blks|] eqn:Hls; [|discriminate].
        destruct (decide _) as [(Ho & _ & Hb)|]; [|discriminate].
        subst st2. unfold owns_storage in Howns.
        destruct (get (data_ (this w))) as [[b0 o0]|].
        - destruct (live (cuda w) b0) as [blk0|] eqn:Hl0; [|contradiction].
          destruct Howns as (_ & _ & Hblk0).
          assert (b0 <> bs) as Hne.
          { intros ->. rewrite Hls in Hl0. injection Hl0 as ->. nia. }
          rewrite (live_release_other _ _ _ _ (free_calls (cuda w)))
            by assumption.
          now apply live_app.
        - now apply live_app. }
      assert (Hin : in_bounds (Block M content) 0 (n * sizeof_T)).
      { unfold in_bounds. cbn [bytes]. subst content.
        rewrite length_uninitialised, size_t_small
          by (unfold is_size_t; nia). nia. }
      assert (Hfar : overlaps (Some (Ptr b' 0)) (Some (Ptr bs os))
                       (n * sizeof_T) = false).
      { unfold overlaps. rewrite bool_decide_false by lia. reflexivity. }
      rewrite Hbytes.
      pose proof (memcpy_spec b' 0 (Block M content) (Some (Ptr bs os))
                    (n * sizeof_T) st2 elts) as Hcpy.
      destruct (memcpy faults _ _ _ _) as [[] st3|e st3| |];
        try (apply Hcpy; try assumption; nia).
      * destruct Hcpy as (_ & _ & Hld); try assumption; [nia|].
        proj_comp. split; [reflexivity|].
        unfold elements. rewrite decide_False by assumption. exact Hld.
      * destruct Hcpy as (-> & found & Hf & _); try assumption; [nia|].
        right. split; [reflexivity|].
        exists (Some (Ptr b' 0)), st2. now rewrite Hf.
Qed.

(** C6, as amended.  Take a source array of [n] elements, wherever it
    lives (a block of either policy), and a vector of either policy that
    owns the storage its capacity says, a block of exactly [capacity]
    elements that the source array does not overlap.  Whenever
    [assign(ptr, n)] returns, the vector has size [n] and the bytes of
    its [size()] elements are the bytes of the [n] source elements; and
    it does return when the policy grants the block a regrowth needs and
    the backend carries out the copy.  The converting copy constructor is
    that [assign] of the source vector's [data()] and [size()] on a fresh
    vector: for a source vector, of any policy, that owns the storage its
    capacity says, the new vector, of any policy, has the size and the
    element bytes of the source vector. *)
Theorem assign_roundtrip :
  0 < sizeof_T ->
  (forall (M : memory_t) (src : pointer) (n : Z) (w : world)
          (elts : list byte),
     is_size_t n -> n * sizeof_T <= SIZE_MAX ->
     owns_storage sizeof_T (cuda w) (this w) ->
     elements sizeof_T (cuda w) src n = Some elts ->
     overlaps (get (data_ (this w))) src (n * sizeof_T) = false ->
     (forall w',
        assign sizeof_T grants junk faults M src n w = Normal tt w' ->
        size_ (this w') = n /\
        elements sizeof_T (cuda w') (get (data_ (this w'))) (size_ (this w'))
          = Some elts) /\
     ((capacity_ (this w) < n ->
       grants M (size_t (n * sizeof_T)) (cuda w) = true) ->
      (forall dst st, faults dst src (n * sizeof_T) st = None) ->
      exists w', assign sizeof_T grants junk faults M src n w = Normal tt w'))
  /\
  (forall (M : memory_t) (v : vector) (st : backend),
     well_typed v -> invariant v -> size_ v * sizeof_T <= SIZE_MAX ->
     owns_storage sizeof_T st v ->
     vector_of_vector sizeof_T grants junk faults M v st =
       construct M (assign sizeof_T grants junk faults M
                      (get (data_ v)) (size_ v)) st /\
     exists elts,
       elements sizeof_T st (get (data_ v)) (size_ v) = Some elts /\
       (forall v' st',
          vector_of_vector sizeof_T grants junk faults M v st = Normal v' st' ->
          size_ v' = size_ v /\
          elements sizeof_T st' (get (data_ v')) (size_ v') = Some elts) /\
       ((0 < size_ v -> grants M (size_t (size_ v * sizeof_T)) st = true) ->
        (forall dst st0,
           faults dst (get (data_ v)) (size_ v * sizeof_T) st0 = None) ->
        exists v' st',
          vector_of_vector sizeof_T grants junk faults M v st = Normal v' st')).
Proof.
  intros Hpos. split.
  - intros M src n w elts Hn Hfit Howns Hsrc Hov.
    pose proof (assign_reproduces M src n w elts Hpos Hn Hfit Howns Hsrc Hov)
      as H.
    split.
    + intros w' Hw'. now rewrite Hw' in H.
    + intros Hg Hf.
      destruct (assign _ _ _ _ _ _ _ _) as [[] w'|e w'| |];
        try contradiction; [eauto|].
      destruct H as [(_ & Hlt & Hno)|(_ & dst & st & Hfault)].
      * rewrite Hg in Hno by assumption. discriminate.
      * now rewrite Hf in Hfault.
  - intros M v st [Hsz _] Hinv Hfit Howns.
    split; [reflexivity|].
    destruct (elements_owned st v Hpos (proj1 Hsz) Hinv Howns)
      as [elts Helts].
    exists elts. split; [exact Helts|].
    pose proof (assign_reproduces M (get (data_ v)) (size_ v)
                  (World (vector_default M) st) elts Hpos Hsz Hfit) as H.
    cbn [this cuda] in H.
    specialize (H eq_refl Helts eq_refl).
    unfold vector_of_vector, vector_of_array, construct.
    destruct (assign _ _ _ _ _ _ _ _) as [[] w'|e w'| |];
      try contradiction.
    + split.
      * intros v' st' [= <- <-]. exact H.
      * eauto.
    + split.
      * intros v' st'.
        destruct (destroy w') as [[] ?|? ?| |]; discriminate.
      * intros Hg Hf. exfalso.
        destruct H as [(_ & Hlt & Hno)|(_ & dst & st0 & Hfault)].
        -- cbn [capacity_ vector_default] in Hlt.
           rewrite Hg in Hno by assumption. discriminate.
        -- now rewrite Hf in Hfault.
Qed.

(** What [resize] does to the two counters. *)
Lemma resize_outcome (M : memory_t) (n : Z) (w : world) :
  match resize sizeof_T grants junk M n w with
  | Normal _ w' =>
      size_ (this w') = n /\ n <= capacity_ (this w') /\
      capacity_ (this w) <= capacity_ (this w') /\
      (capacity_ (this w') = capacity_ (this w) \/ capacity_ (this w') = n)
  | Raised _ w' =>
      size_ (this w') = size_ (this w) /\
      capacity_ (this w') = capacity_ (this w)
  | _ => True
  end.
Proof.
  rewrite resize_eq, reserve_eq.
  destruct (Z.ltb_spec (capacity_ (this w)) n); [|proj_comp; lia].
  destruct (memory_allocate _ _ _ _ _) as [p st1|e st1| |]; proj_comp; auto.
  destruct (get (data_ (this w))); proj_comp; [|lia].
  destruct (memory_free _ _ _) as [[] ?|? ?| |]; proj_comp; auto; lia.
Qed.

(** What [resize] and [memcpy] throw. *)
Lemma resize_raises (M : memory_t) (n : Z) (w : world) :
  forall e w', resize sizeof_T grants junk M n w = Raised e w' ->
               e = AllocationFailure.
Proof.
  intros e w'. rewrite resize_eq, reserve_eq.
  destruct (_ <? _); [|discriminate].
  unfold memory_allocate. destruct (grants _ _ _).
  - destruct (get (data_ (this w))) as [[b o]|]; [|discriminate].
    unfold memory_free. destruct (live _ _); [|discriminate].
    destruct (decide _); discriminate.
  - now intros [= <- _].
Qed.

Lemma memcpy_raises (dst src : pointer) (n : Z) (st : backend) :
  forall e st', memcpy faults dst src n st = Raised e st' ->
                e = BackendOperationFailure.
Proof.
  intros e st'. unfold memcpy.
  destruct (decide _); [discriminate|].
  destruct (_ || _); [discriminate|].
  destruct (load _ _ _); [|discriminate].
  destruct (faults _ _ _ _).
  - destruct (store _ _ _); [|discriminate]. now intros [= <- _].
  - destruct (store _ _ _); discriminate.
Qed.

(** What [assign] does to the two counters; [memcpy] touches the store
    only. *)
Lemma assign_outcome (M : memory_t) (src : pointer) (n : Z) (w : world) :
  match assign sizeof_T grants junk faults M src n w with
  | Normal _ w' =>
      size_ (this w') = n /\ n <= capacity_ (this w') /\
      capacity_ (this w) <= capacity_ (this w') /\
      (capacity_ (this w') = capacity_ (this w) \/ capacity_ (this w') = n)
  | Raised e w' =>
      e = AllocationFailure /\
      size_ (this w') = size_ (this w) /\
      capacity_ (this w') = capacity_ (this w)
      \/
      e = BackendOperationFailure /\
      size_ (this w') = n /\ n <= capacity_ (this w') /\
      capacity_ (this w) <= capacity_ (this w') /\
      (capacity_ (this w') = capacity_ (this w) \/ capacity_ (this w') = n)
  | _ => True
  end.
Proof.
  rewrite assign_eq. pose proof (resize_outcome M n w) as Hr.
  pose proof (resize_raises M n w) as He.
  destruct (resize _ _ _ _ _ _) as [[] w1|e w1| |]; auto.
  - pose proof (memcpy_raises (get (data_ (this w1))) src
                  (size_t (sizeof_T * n)) (cuda w1)) as Hm.
    destruct (memcpy faults _ _ _ _) as [[] ?|? ?| |]; proj_comp; auto.
    right. split; [eapply Hm; reflexivity|exact Hr].
  - left. split; [eapply He; reflexivity|exact Hr].
Qed.

Lemma memset_this (M : memory_t) (value : byte) (w : world) :
  on_state (fun w' => this w' = this w) (memset sizeof_T M value w).
Proof.
  run_comp. unfold memory_memset.
  destruct (decide _); [reflexivity|].
  destruct (decide _); [|exact I].
  destruct (store _ _ _); [reflexivity|exact I].
Qed.

Lemma construct_outcome (M : memory_t) (body : comp world unit)
    (P : vector -> Prop) (st : backend) :
  on_state (fun w' => P (this w')) (body (World (vector_default M) st)) ->
  forall v st', construct M body st = Normal v st' -> P v.
Proof.
  unfold construct. intros Hbody v st'.
  destruct (body _) as [[] w1|e w1| |]; try discriminate.
  - now intros [= <- <-].
  - destruct (destroy w1) as [[] ?|? ?| |]; discriminate.
Qed.

(** C3.  A vector that a constructor returns satisfies
    [size <= capacity].  Every member function that changes a vector
    (reserve, resize, clear, the two assign, assign_zero, memset,
    push_back), called on a vector with [size <= capacity], leaves
    [size <= capacity], whether it returns or throws, and leaves a
    capacity that is not smaller than before; the counters stay
    [size_t] values.  [swap] leaves [size <= capacity] in both
    vectors. *)
Theorem invariant_preserved (M : memory_t) :
  (forall (c : constructor) (st st' : backend) (v : vector),
     new sizeof_T grants junk faults M c st = Normal v st' -> invariant v) /\
  (forall (m : method) (w : world),
     well_typed (this w) -> invariant (this w) -> method_typed m ->
     on_state (fun w' =>
                 well_typed (this w') /\ invariant (this w') /\
                 capacity_ (this w) <= capacity_ (this w'))
              (call sizeof_T NDEBUG grants junk faults M m w)) /\
  (forall a b : vector,
     invariant a -> invariant b ->
     invariant (fst (swap a b)) /\ invariant (snd (swap a b))).
Proof.
  split; [|split].
  - intros c st st' v. destruct c as [|n|elts|src n|v0]; cbn [new].
    + intros [= <- _]. unfold invariant. simpl. lia.
    + apply construct_outcome.
      pose proof (resize_outcome M n (World (vector_default M) st)) as H.
      destruct (resize _ _ _ _ _ _) as [[] w1|e w1| |]; simpl; auto;
        unfold invariant; simpl in H; lia.
    + apply construct_outcome.
      unfold bind, data, gets, on_cuda, zoom.
      pose proof (resize_outcome host_memory_t
                    (size_t (Z.of_nat (length elts)))
                    (World (vector_default host_memory_t) st)) as H.
      destruct (resize _ _ _ _ _ _) as [[] w1|e w1| |]; simpl; auto;
        [|unfold invariant; simpl in H; lia].
      destruct (std_copy _ _ _) as [[] ?|? ?| |]; simpl; auto;
        unfold invariant; lia.
    + apply construct_outcome.
      pose proof (assign_outcome M src n (World (vector_default M) st)) as H.
      destruct (assign _ _ _ _ _ _ _) as [[] w1|e w1| |]; simpl; auto;
        unfold invariant; simpl in H; lia.
    + apply construct_outcome.
      pose proof (assign_outcome M (get (data_ v0)) (size_ v0)
                    (World (vector_default M) st)) as H.
      destruct (assign _ _ _ _ _ _ _) as [[] w1|e w1| |]; simpl; auto;
        unfold invariant; simpl in H; lia.
  - intros m w [Hsz Hcap] Hinv Hm.
    unfold well_typed, invariant, is_size_t in *.
    assert (Hassign : forall src n, 0 <= n <= SIZE_MAX ->
              on_state (fun w' =>
                 ((0 <= size_ (this w') <= SIZE_MAX) /\
                  (0 <= capacity_ (this w') <= SIZE_MAX)) /\
                 size_ (this w') <= capacity_ (this w') /\
                 capacity_ (this w) <= capacity_ (this w'))
                (assign sizeof_T grants junk faults M src n w)).
    { intros src n Hn. pose proof (assign_outcome M src n w) as H.
      destruct (assign _ _ _ _ _ _ _) as [[] w1|e w1| |]; simpl; auto; lia. }
    destruct m as [n|n| |src n|first last|n|value|v];
      cbn [call method_typed] in *; unfold is_size_t in *.
    + pose proof (reserve_outcome M n w) as H.
      destruct (reserve _ _ _ _ _ _) as [[] w1|e w1| |]; simpl; auto; lia.
    + pose proof (resize_outcome M n w) as H.
      destruct (resize _ _ _ _ _ _) as [[] w1|e w1| |]; simpl; auto; lia.
    + simpl. lia.
    + apply Hassign, Hm.
    + unfold assign_range.
      destruct first as [[b1 o1]|], last as [[b2 o2]|]; try exact I.
      * destruct (decide _); [|exact I].
        destruct (negb NDEBUG && (o2 <? o1)); [exact I|].
        apply Hassign, size_t_range.
      * apply Hassign. unfold SIZE_MAX. lia.
    + unfold assign_zero, bind.
      pose proof (resize_outcome M n w) as H.
      destruct (resize _ _ _ _ _ _) as [[] w1|e w1| |]; simpl; auto;
        [|lia].
      pose proof (memset_this M x00 w1) as Hms.
      destruct (memset _ _ _ _) as [[] w2|e w2| |]; simpl in *; auto;
        rewrite Hms; lia.
    + pose proof (memset_this M value w) as Hms.
      destruct (memset _ _ _ _) as [[] w2|e w2| |]; simpl in *; auto;
        rewrite Hms; lia.
    + rewrite push_back_eq.
      pose proof (size_t_range (size_ (this w) + 1)) as Hr.
      unfold is_size_t in Hr.
      destruct (Z.ltb_spec (capacity_ (this w)) (size_t (size_ (this w) + 1)));
        [simpl; lia|].
      destruct (host_store _ _ _); simpl; [lia|exact I].
  - intros [? ? ?] [? ? ?]. unfold invariant. simpl. tauto.
Qed.


(** C9.  [clear()] sets the size to zero and leaves the capacity, the
    storage pointer with its deleter, and the whole store (hence the
    stored bytes; nothing is released, nothing is filled) as they
    were. *)
Theorem clear_spec (w : world) :
  exists v',
    clear w = Normal tt (World v' (cuda w)) /\
    size_ v' = 0 /\
    capacity_ v' = capacity_ (this w) /\
    data_ v' = data_ (this w).
Proof. eexists. run_comp. repeat split. Qed.

(** C10.  A default-constructed vector has size 0, capacity 0 and a null
    storage pointer, and [push_back] on it, whatever the element and the
    store, throws the capacity error and leaves the vector and the store
    as they were. *)
Theorem push_back_default (M : memory_t) (v : list byte) (st : backend) :
  size_ (vector_default M) = 0 /\
  capacity_ (vector_default M) = 0 /\
  get (data_ (vector_default M)) = nullptr /\
  push_back sizeof_T v (World (vector_default M) st) =
    Raised (runtime_error "cuda::vector::capacity exceeded")
           (World (vector_default M) st).
Proof. repeat split. Qed.

(** C7.  [swap] exchanges the size, the capacity and the storage (the
    pointer with its deleter) of the two vectors and touches nothing
    else: it has no access to the store.  Swapping twice gives back the
    two vectors. *)
Theorem swap_spec (a b : vector) :
  swap a b = (Vector (size_ b) (capacity_ b) (data_ b),
              Vector (size_ a) (capacity_ a) (data_ a)) /\
  swap (fst (swap a b)) (snd (swap a b)) = (a, b).
Proof. destruct a, b. split; reflexivity. Qed.

End VectorFacts.

(** ** Shared arrays *)

Section SharedFacts.

Variable sizeof_T : Z.
Variable grants : memory_t -> Z -> backend -> bool.
Variable junk : nat -> nat -> byte.
Variable faults : pointer -> pointer -> Z -> backend -> option (list byte).

Lemma well_formed_nobody (evs : list event) :
  well_formed evs 0 = true -> evs = [].
Proof. destruct evs as [|[i|i] evs]; [reflexivity|discriminate..]. Qed.

(** While references are held, the control block counts them, the
    array is live and [free] has not been called; any program of copies
    and drops runs to its end, and [free] has been called, once, on the
    array and by its policy, exactly if it ends with no reference
    held. *)
Lemma run_counts (M : memory_t) (b c : nat) (evs : list event) :
  forall (held : list shared_ptr) (w : shared_world),
    held <> [] ->
    Forall (fun r => r = SharedPtr (Some (Ptr b 0)) c) held ->
    controls w !! c = Some (ControlBlock (Some (Ptr b 0)) M (length held)) ->
    (exists blk, live (sp_cuda w) b = Some blk /\ owner blk = M) ->
    well_formed evs (length held) = true ->
    exists held' w',
      run evs held w = Normal held' w' /\
      free_calls (sp_cuda w') =
        free_calls (sp_cuda w) ++
          match held' with
          | [] => [(M, Some (Ptr b 0))]
          | _ :: _ => []
          end.
Proof.
  induction evs as [|e evs IH]; intros held w Hne Hall Hctl Hlive Hwf.
  - exists held, w. split; [reflexivity|].
    destruct held; [contradiction|now rewrite app_nil_r].
  - pose proof (lookup_lt_Some _ _ _ Hctl) as Hc.
    destruct e as [i|i]; cbn [well_formed] in Hwf;
      apply andb_prop in Hwf as [Hi Hwf]; apply Nat.ltb_lt in Hi;
      destruct (lookup_lt_is_Some_2 held i Hi) as [r Hr];
      pose proof (Forall_lookup_1 _ _ _ _ Hall Hr) as ->;
      cbn [run step]; rewrite Hr; unfold bind.
    + unfold shared_ptr_copy. cbn [sp_control]. rewrite Hctl.
      destruct (length held) as [|k] eqn:Hlen; [lia|].
      destruct (IH (held ++ [SharedPtr (Some (Ptr b 0)) c])
                  (SharedWorld
                     (<[c := ControlBlock (Some (Ptr b 0)) M (S (S k))]>
                        (controls w)) (sp_cuda w)))
        as (held' & w' & Hrun & Hfree).
      * now destruct held.
      * apply Forall_app_2; [assumption|now constructor].
      * cbn [controls]. rewrite list_lookup_insert_eq by assumption.
        rewrite length_app, Hlen. simpl. do 3 f_equal. lia.
      * exact Hlive.
      * rewrite length_app, Hlen. simpl.
        now replace (k + 1)%nat with (S k) by lia.
      * exists held', w'. split; [exact Hrun|exact Hfree].
    + unfold shared_ptr_drop. cbn [sp_control]. rewrite Hctl.
      destruct (length held) as [|k] eqn:Hlen; [lia|].
      assert (Hdel : length (delete i held) = k).
      { rewrite length_delete by eauto. lia. }
      destruct k as [|k].
      * destruct Hlive as (blk & Hblk & Hown).
        unfold on_sp_cuda, zoom, memory_free. cbn [sp_cuda controls].
        rewrite Hblk, decide_True by auto.
        destruct (delete i held); [|discriminate].
        cbn [pred] in Hwf. apply well_formed_nobody in Hwf as ->.
        eexists [], _. split; reflexivity.
      * destruct (IH (delete i held)
                    (SharedWorld
                       (<[c := ControlBlock (Some (Ptr b 0)) M (S k)]>
                          (controls w)) (sp_cuda w)))
          as (held' & w' & Hrun & Hfree).
        -- intros E. now rewrite E in Hdel.
        -- now apply Forall_delete.
        -- cbn [controls]. rewrite list_lookup_insert_eq by assumption.
           now rewrite Hdel.
        -- exact Hlive.
        -- now rewrite Hdel.
        -- exists held', w'. split; [exact Hrun|exact Hfree].
Qed.

(** C8.  After [make_shared<T, M>(n)] has returned a reference, every
    program that copies and drops references to the array, in any
    number and any order, runs to its end; when it ends with no
    reference held, [free] has been called exactly once more than
    before, by the policy [M] that allocated the array and on the
    array; when it ends with a reference still held, [free] has not
    been called. *)
Theorem make_shared_freed_once (M : memory_t) (n : Z) (w0 w1 : shared_world)
    (r : shared_ptr) (evs : list event) :
  make_shared sizeof_T grants junk M n w0 = Normal r w1 ->
  well_formed evs 1 = true ->
  exists held w2,
    run evs [r] w1 = Normal held w2 /\
    free_calls (sp_cuda w2) =
      free_calls (sp_cuda w0) ++
        match held with
        | [] => [(M, sp_get r)]
        | _ :: _ => []
        end.
Proof.
  unfold make_shared, bind, on_sp_cuda, zoom, allocate, memory_allocate,
    shared_ptr_of.
  destruct (grants _ _ _); [|discriminate].
  cbn [controls sp_cuda]. intros [= <- <-] Hwf. cbn [sp_get].
  set (b := length (blocks (sp_cuda w0))).
  set (c := length (controls w0)).
  match goal with |- context [run evs _ ?w] => set (w1 := w) end.
  destruct (run_counts M b c evs [SharedPtr (Some (Ptr b 0)) c] w1)
    as (held & w2 & Hrun & Hfree).
  - discriminate.
  - now constructor.
  - subst w1 c. cbn [controls length].
    now rewrite lookup_app_r, Nat.sub_diag by lia.
  - exists (Block M (uninitialised junk b (size_t (n * sizeof_T)))).
    split; [|reflexivity].
    subst w1 b. unfold live. cbn [blocks sp_cuda].
    now rewrite lookup_app_r, Nat.sub_diag by lia.
  - exact Hwf.
  - exists held, w2. split; [exact Hrun|exact Hfree].
Qed.

End SharedFacts.

(** ** The theorems at concrete vectors *)



Lemma reserve_spec_witness :
  let w := World (Vector 2 2 (UniquePtr (Some (Ptr 0 0)) host_memory_t))
                 (Backend [Some (Block host_memory_t [x01; x02])] []) in
  releasable (cuda w) (this w) /\
  reserve 1 grant_all zeroes host_memory_t 1 w = Normal tt w /\
  reserve 1 grant_none zeroes host_memory_t 4 w = Raised AllocationFailure w /\
  (exists v' st',
     reserve 1 grant_all zeroes host_memory_t 4 w = Normal tt (World v' st') /\
     capacity_ v' = 4 /\
     get (data_ v') = Some (Ptr 1 0) /\
     live st' 1 = Some (Block host_memory_t [x00; x00; x00; x00]) /\
     live st' 0 = None /\
     free_calls st' = [(host_memory_t, Some (Ptr 0 0))]) /\
  (exists w2,
     (let! _ := reserve 1 grant_all zeroes host_memory_t 3 in
      reserve 1 grant_all zeroes host_memory_t 4) w = Normal tt w2 /\
     4 <= capacity_ (this w2)).
Proof.
  intros w.
  assert (Hrel : releasable (cuda w) (this w)) by (vm_compute; auto).
  split; [exact Hrel|].
  split; [apply (reserve_spec 1 grant_all zeroes host_memory_t 1 w); simpl; lia|].
  split; [apply (reserve_spec 1 grant_none zeroes host_memory_t 4 w);
          [simpl; lia|reflexivity]|].
  split.
  - destruct (reserve_spec 1 grant_all zeroes host_memory_t 4 w)
      as (_ & _ & Hgrow & _).
    destruct Hgrow as (v' & st' & Hr & _ & Hc & Hp & _ & Hl & _ & Hold & _);
      [simpl; lia|reflexivity|exact Hrel|].
    exists v', st'. destruct (Hold 0%nat 0 eq_refl) as [Hd Hf].
    repeat split; assumption.
  - destruct (reserve_spec 1 grant_all zeroes host_memory_t 3 w)
      as (_ & _ & _ & Hcap & Hret).
    destruct (Hret 4) as [w2 H2]; [lia|reflexivity|exact Hrel|reflexivity|].
    exists w2. split; [exact H2|]. apply (Hcap 4 w2); [lia|exact H2].
Defined.

(** C4, as stated, fails where [n * sizeof(T)] wraps around: with
    eight-byte elements, [reserve(2^61 + 1)] asks the policy for eight
    bytes, so the fresh block holds one element, not [n], while the
    capacity is set to [n]. *)
Lemma reserve_wraps :
  reserve 8 grant_all zeroes host_memory_t (2 ^ 61 + 1)
    (World (vector_default host_memory_t) (Backend [] [])) =
  Normal tt
    (World (Vector 0 (2 ^ 61 + 1) (UniquePtr (Some (Ptr 0 0)) host_memory_t))
           (Backend [Some (Block host_memory_t
                             [x00; x00; x00; x00; x00; x00; x00; x00])] [])).
Proof. reflexivity. Qed.

Lemma resize_spec_witness :
  let w := World (vector_default device_memory_t) (Backend [] []) in
  releasable (cuda w) (this w) /\
  (exists w', resize 4 grant_all zeroes device_memory_t 3 w = Normal tt w' /\
              size_ (this w') = 3 /\ 3 <= capacity_ (this w')) /\
  resize 4 grant_all zeroes device_memory_t 0 w = Normal tt w /\
  resize 4 grant_none zeroes device_memory_t 3 w = Raised AllocationFailure w.
Proof.
  intros w.
  assert (Hrel : releasable (cuda w) (this w)) by exact I.
  split; [exact Hrel|]. split; [|split].
  - destruct (resize_spec 4 grant_all zeroes device_memory_t 3 w)
      as (Hpost & _ & Hret & _).
    destruct Hret as [w' Hw']; [simpl; lia|reflexivity|exact Hrel|].
    exists w'. split; [exact Hw'|]. exact (Hpost w' Hw').
  - apply (resize_spec 4 grant_all zeroes device_memory_t 0 w). simpl. lia.
  - apply (resize_spec 4 grant_none zeroes device_memory_t 3 w);
      [simpl; lia|reflexivity].
Defined.

Lemma assign_roundtrip_witness :
  let st := Backend [Some (Block host_memory_t [x01; x02; x03; x04])] [] in
  let w := World (vector_default device_memory_t) st in
  let v := Vector 2 2 (UniquePtr (Some (Ptr 0 0)) host_memory_t) in
  (exists w',
     assign 2 grant_all zeroes no_fault device_memory_t (Some (Ptr 0 0)) 2 w
       = Normal tt w' /\
     size_ (this w') = 2 /\
     elements 2 (cuda w') (get (data_ (this w'))) (size_ (this w'))
       = Some [x01; x02; x03; x04]) /\
  (exists v' st',
     vector_of_vector 2 grant_all zeroes no_fault device_memory_t v st
       = Normal v' st' /\
     size_ v' = 2 /\
     elements 2 st' (get (data_ v')) (size_ v') = Some [x01; x02; x03; x04]).
Proof.
  intros st w v.
  destruct (assign_roundtrip 2 grant_all zeroes no_fault ltac:(lia))
    as [Hassign Hcopy].
  split.
  - destruct (Hassign device_memory_t (Some (Ptr 0 0)) 2 w
                [x01; x02; x03; x04]) as [Hpost Hret].
    + unfold is_size_t, SIZE_MAX. lia.
    + unfold SIZE_MAX. lia.
    + reflexivity.
    + reflexivity.
    + reflexivity.
    + destruct Hret as [w' Hw']; [intros; reflexivity|intros; reflexivity|].
      exists w'. split; [exact Hw'|]. exact (Hpost w' Hw').
  - destruct (Hcopy device_memory_t v st) as (_ & elts & He & Hpost & Hret).
    + unfold well_typed, is_size_t, SIZE_MAX. simpl. lia.
    + unfold invariant. simpl. lia.
    + unfold SIZE_MAX. simpl. lia.
    + vm_compute. auto.
    + destruct Hret as (v' & st' & Hv);
        [intros; reflexivity|intros; reflexivity|].
      exists v', st'. split; [exact Hv|].
      destruct (Hpost v' st' Hv) as [Hs Hr]. split; [exact Hs|].
      rewrite Hr. rewrite <- He. reflexivity.
Defined.

(** C6, as stated, fails on a vector whose storage block holds fewer than
    [capacity] elements, and for a source array inside the storage
    written to.  After [reserve(2^61 + 1)] with eight-byte elements the
    block holds one element; [assign] of a readable array of two
    elements sees room enough, allocates nothing and copies sixteen bytes
    over the eight of the block.  The converting copy constructor reads
    past the block of such a source vector once it is resized to two
    elements.  And [assign] of two elements of the vector's own storage
    onto its start is a copy between overlapping ranges. *)
Lemma assign_past_block :
  let src := [x01; x02; x03; x04; x05; x06; x07; x08;
              x09; x0a; x0b; x0c; x0d; x0e; x0f; x10] in
  let st := Backend [Some (Block host_memory_t src)] [] in
  (exists w1,
     reserve 8 grant_all zeroes host_memory_t (2 ^ 61 + 1)
       (World (vector_default host_memory_t) st) = Normal tt w1 /\
     elements 8 (cuda w1) (Some (Ptr 0 0)) 2 = Some src /\
     overlaps (get (data_ (this w1))) (Some (Ptr 0 0)) (2 * 8) = false /\
     assign 8 grant_all zeroes no_fault host_memory_t (Some (Ptr 0 0)) 2 w1
       = Undefined) /\
  (exists w1 w2,
     reserve 8 grant_all zeroes host_memory_t (2 ^ 61 + 1)
       (World (vector_default host_memory_t) st) = Normal tt w1 /\
     resize 8 grant_all zeroes host_memory_t 2 w1 = Normal tt w2 /\
     size_ (this w2) = 2 /\ invariant (this w2) /\
     vector_of_vector 8 grant_all zeroes no_fault device_memory_t
       (this w2) (cuda w2) = Undefined) /\
  (let w := World (Vector 3 3 (UniquePtr (Some (Ptr 0 0)) host_memory_t))
                  (Backend [Some (Block host_memory_t [x01; x02; x03])] []) in
   valid 1 host_memory_t (cuda w) (this w) /\
   elements 1 (cuda w) (Some (Ptr 0 1)) 2 = Some [x02; x03] /\
   assign 1 grant_all zeroes no_fault host_memory_t (Some (Ptr 0 1)) 2 w
     = Undefined).
Proof.
  intros src st. split; [|split].
  - eexists. split; [reflexivity|].
    split; [reflexivity|]. split; reflexivity.
  - eexists _, _. split; [reflexivity|]. split; [reflexivity|].
    split; [reflexivity|]. split; [vm_compute; discriminate|reflexivity].
  - intros w. split; [vm_compute; intuition discriminate|].
    split; reflexivity.
Qed.

Lemma invariant_preserved_witness :
  let w := World (Vector 2 2 (UniquePtr (Some (Ptr 0 0)) host_memory_t))
                 (Backend [Some (Block host_memory_t [x01; x02])] []) in
  (well_typed (this w) /\ invariant (this w)) /\
  (exists w',
     call 1 true grant_all zeroes no_fault host_memory_t (call_resize 5) w
       = Normal tt w' /\
     invariant (this w') /\ capacity_ (this w) <= capacity_ (this w')) /\
  (exists w',
     call 1 true grant_all zeroes no_fault host_memory_t (call_push_back [x03]) w
       = Raised capacity_exceeded w' /\
     invariant (this w') /\ capacity_ (this w) <= capacity_ (this w')) /\
  (exists v st',
     new 1 grant_all zeroes no_fault host_memory_t (new_of_size 3) (Backend [] [])
       = Normal v st' /\ invariant v).
Proof.
  intros w.
  assert (Ht : well_typed (this w)) by (vm_compute; intuition discriminate).
  assert (Hi : invariant (this w)) by (vm_compute; discriminate).
  destruct (invariant_preserved 1 true grant_all zeroes no_fault host_memory_t)
    as (Hnew & Hcall & _).
  split; [auto|]. split; [|split].
  - pose proof (Hcall (call_resize 5) w Ht Hi) as H.
    eexists. split; [reflexivity|].
    apply H. vm_compute. intuition discriminate.
  - pose proof (Hcall (call_push_back [x03]) w Ht Hi I) as H.
    eexists. split; [reflexivity|]. apply H.
  - eexists _, _. split; [reflexivity|].
    eapply (Hnew (new_of_size 3) (Backend [] [])). reflexivity.
Defined.

Lemma make_shared_freed_once_witness :
  let w0 := SharedWorld [] (Backend [] []) in
  exists r w1,
    make_shared 8 grant_all zeroes device_memory_t 2 w0 = Normal r w1 /\
    (exists w2,
       run [ev_copy 0; ev_drop 0; ev_drop 0]%nat [r] w1 = Normal [] w2 /\
       free_calls (sp_cuda w2) = [(device_memory_t, Some (Ptr 0 0))]) /\
    (exists w2,
       run [ev_copy 0; ev_copy 1; ev_drop 2; ev_drop 0]%nat [r] w1
         = Normal [r] w2 /\
       free_calls (sp_cuda w2) = []).
Proof.
  intros w0. eexists _, _. split; [reflexivity|]. split.
  - destruct (make_shared_freed_once 8 grant_all zeroes device_memory_t 2 w0
                _ _ [ev_copy 0; ev_drop 0; ev_drop 0]%nat eq_refl eq_refl)
      as (held & w2 & Hrun & Hfree).
    vm_compute in Hrun. injection Hrun as <- <-.
    eexists. split; [reflexivity|exact Hfree].
  - destruct (make_shared_freed_once 8 grant_all zeroes device_memory_t 2 w0
                _ _ [ev_copy 0; ev_copy 1; ev_drop 2; ev_drop 0]%nat
                eq_refl eq_refl)
      as (held & w2 & Hrun & Hfree).
    vm_compute in Hrun. injection Hrun as <- <-.
    eexists. split; [reflexivity|exact Hfree].
Defined.

(** * Further properties of the vector *)

Section Primitives.

Variable grants : memory_t -> Z -> backend -> bool.
Variable junk : nat -> nat -> byte.
Variable faults : pointer -> pointer -> Z -> backend -> option (list byte).

(** What a successful write is. *)
Lemma store_inv (st st' : backend) (b : nat) (o : Z) (data : list byte) :
  store st (Some (Ptr b o)) data = Some st' ->
  exists blk,
    live st b = Some blk /\
    in_bounds blk o (Z.of_nat (length data)) /\
    st' = Backend (<[b := Some (Block (owner blk)
                                      (splice (bytes blk) o data))]>
                     (blocks st))
                  (free_calls st).
Proof.
  unfold store. destruct (live st b) as [blk|]; [|discriminate].
  destruct (decide _); [|discriminate]. intros [= <-]. eauto.
Qed.

Lemma live_insert_ne (l : list (option block)) (b b' : nat) x calls calls' :
  b <> b' ->
  live (Backend (<[b := x]> l) calls) b' = live (Backend l calls') b'.
Proof.
  intros Hne. unfold live. cbn [blocks].
  now rewrite list_lookup_insert_ne by assumption.
Qed.

Lemma live_eta (st : backend) (b : nat) calls :
  live (Backend (blocks st) calls) b = live st b.
Proof. reflexivity. Qed.

(** A write changes the block written to only, and that one keeps its
    owner and its length. *)
Lemma store_other (st st' : backend) (p : pointer) (data : list byte)
    (b : nat) :
  store st p data = Some st' ->
  (forall o, p <> Some (Ptr b o)) ->
  live st' b = live st b.
Proof.
  destruct p as [[b0 o0]|]; [|discriminate].
  intros Hst Hne. apply store_inv in Hst as (blk & _ & _ & ->).
  rewrite (live_insert_ne _ _ _ _ _ (free_calls st)).
  - apply live_eta.
  - intros ->. now apply (Hne o0).
Qed.

Lemma store_shape (st st' : backend) (p : pointer) (data : list byte)
    (b : nat) (blk : block) :
  store st p data = Some st' ->
  live st b = Some blk ->
  exists blk',
    live st' b = Some blk' /\ owner blk' = owner blk /\
    length (bytes blk') = length (bytes blk).
Proof.
  destruct p as [[b0 o0]|]; [|discriminate].
  intros Hst Hlive. pose proof Hst as Hst'.
  apply store_inv in Hst as (blk0 & Hl0 & (Ho & _ & Hb) & ->).
  destruct (decide (b0 = b)) as [->|Hne].
  - rewrite Hlive in Hl0. injection Hl0 as <-.
    erewrite live_insert by eassumption.
    eexists. split; [reflexivity|]. cbn [owner bytes].
    split; [reflexivity|]. apply length_splice; lia.
  - rewrite (live_insert_ne _ _ _ _ _ (free_calls st)) by assumption.
    rewrite live_eta. eauto.
Qed.

Lemma store_free_calls (st st' : backend) (p : pointer) (data : list byte) :
  store st p data = Some st' ->
  free_calls st' = free_calls st /\ length (blocks st') = length (blocks st).
Proof.
  destruct p as [[b0 o0]|]; [|discriminate].
  intros Hst. apply store_inv in Hst as (blk0 & _ & _ & ->).
  cbn [free_calls blocks]. now rewrite length_insert.
Qed.

(** [free] never throws. *)
Lemma memory_free_outcome (M : memory_t) (p : pointer) (st : backend) :
  match memory_free M p st with
  | Normal _ st' =>
      free_calls st' = free_calls st ++ [(M, p)] /\
      length (blocks st') = length (blocks st) /\
      forall b, (forall o, p <> Some (Ptr b o)) -> live st' b = live st b
  | Raised _ _ | Aborted => False
  | Undefined => True
  end.
Proof.
  unfold memory_free. destruct p as [[b0 o0]|].
  - destruct (live st b0) as [blk|]; [|exact I].
    destruct (decide _); [|exact I]. cbn [free_calls blocks].
    rewrite length_insert. repeat split.
    intros b Hne.
    rewrite (live_insert_ne _ _ _ _ _ (free_calls st)); [apply live_eta|].
    intros ->. now apply (Hne o0).
  - repeat split.
Qed.

(** [allocate] throws the allocation failure only, with the store as it
    was; on return the block is the next one of the store. *)
Lemma memory_allocate_outcome (M : memory_t) (n : Z) (st : backend) :
  match memory_allocate grants junk M n st with
  | Normal p st' =>
      p = Some (Ptr (length (blocks st)) 0) /\
      free_calls st' = free_calls st /\
      length (blocks st') = S (length (blocks st)) /\
      live st' (length (blocks st))
        = Some (Block M (uninitialised junk (length (blocks st)) n)) /\
      forall b, b <> length (blocks st) -> live st' b = live st b
  | Raised e st' => e = AllocationFailure /\ st' = st
  | Aborted | Undefined => False
  end.
Proof.
  unfold memory_allocate. destruct (grants M n st); [|auto].
  cbn [free_calls blocks]. rewrite length_app. cbn [length].
  split; [reflexivity|]. split; [reflexivity|]. split; [lia|].
  split; [apply live_fresh|].
  intros b Hne. unfold live. cbn [blocks].
  destruct (decide (b < length (blocks st))%nat).
  - now rewrite lookup_app_l by assumption.
  - rewrite !lookup_ge_None_2; [reflexivity|lia|].
    rewrite length_app. cbn [length]. lia.
Qed.

(** [memcpy] throws the backend failure only and [memset] never throws;
    returning or throwing, they change the block written to only, and no
    block's owner or length. *)
Lemma memcpy_outcome (dst src : pointer) (n : Z) (st : backend) :
  match memcpy faults dst src n st with
  | Normal _ st' =>
      (n = 0 /\ st' = st) \/
      (n <> 0 /\ exists data, load st src n = Some data /\
                              store st dst data = Some st')
  | Raised e st' =>
      e = BackendOperationFailure /\
      exists data, store st dst data = Some st'
  | Aborted => False
  | Undefined => True
  end.
Proof.
  unfold memcpy. destruct (decide (n = 0)); [auto|].
  destruct (_ || _); [exact I|].
  destruct (load st src n) as [data|]; [|exact I].
  destruct (faults dst src n st) as [found|].
  - destruct (store st dst _) as [st'|] eqn:Hst; [|exact I]. eauto.
  - destruct (store st dst data) as [st'|] eqn:Hst; [|exact I].
    right. eauto.
Qed.

Lemma memory_memset_outcome (M : memory_t) (dst : pointer) (value : byte)
    (n : Z) (st : backend) :
  match memory_memset M dst value n st with
  | Normal _ st' =>
      (n = 0 /\ st' = st) \/
      (0 < n /\ store st dst (replicate (Z.to_nat n) value) = Some st')
  | Raised _ _ | Aborted => False
  | Undefined => True
  end.
Proof.
  unfold memory_memset. destruct (decide (n = 0)); [auto|].
  destruct (decide (0 <= n)); [|exact I].
  destruct (store _ _ _) as [st'|] eqn:Hst; [|exact I].
  right. split; [lia|reflexivity].
Qed.

End Primitives.

Section Effects.

Variable sizeof_T : Z.
Variable NDEBUG : bool.
Variable grants : memory_t -> Z -> backend -> bool.
Variable junk : nat -> nat -> byte.
Variable faults : pointer -> pointer -> Z -> backend -> option (list byte).

Lemma storage_block_ne (v : vector) (b : nat) :
  storage_block v <> Some b <-> forall o, get (data_ v) <> Some (Ptr b o).
Proof.
  unfold storage_block. destruct (get (data_ v)) as [[b0 o0]|].
  - split.
    + intros Hne o [= -> _]. now apply Hne.
    + intros Hne [= ->]. now apply (Hne o0).
  - split; [discriminate|]. intros _. discriminate.
Qed.

Lemma ptr_add_0 (p : pointer) : ptr_add p 0 = p.
Proof. destruct p as [[b o]|]; [|reflexivity]. cbn. now rewrite Z.add_0_r. Qed.

Lemma footprint_refl (w : world) : footprint w w.
Proof. unfold footprint. auto. Qed.

(** A write through the storage pointer of [w1], after a step from [w]
    to [w1], stays a step from [w]. *)
Lemma footprint_write (w w1 : world) (st2 : backend) (k : Z)
    (data : list byte) (f : vector -> vector) :
  footprint w w1 ->
  data_ (f (this w1)) = data_ (this w1) ->
  store (cuda w1) (ptr_add (get (data_ (this w1))) k) data = Some st2 ->
  footprint w (World (f (this w1)) st2).
Proof.
  intros (Hd & Hp & Hf & Hl) Hdata Hst.
  destruct (store_free_calls _ _ _ _ Hst) as [Hcalls _].
  unfold footprint. cbn [this cuda]. unfold storage_block in *.
  rewrite Hdata, Hcalls.
  split; [exact Hd|]. split; [exact Hp|]. split; [exact Hf|].
  intros b Hb Hb1. rewrite <- (Hl b Hb Hb1).
  eapply store_other; [exact Hst|].
  intros o. destruct (get (data_ (this w1))) as [[b1 o1]|]; [|discriminate].
  cbn [ptr_add]. intros [= -> _]. now apply Hb1.
Qed.

Lemma footprint_this (w w1 : world) (f : vector -> vector) :
  footprint w w1 ->
  data_ (f (this w1)) = data_ (this w1) ->
  footprint w (World (f (this w1)) (cuda w1)).
Proof.
  intros (Hd & Hp & Hf & Hl) Hdata.
  unfold footprint, storage_block in *. cbn [this cuda]. now rewrite Hdata.
Qed.

(** [reserve] returns within its footprint; it throws the allocation
    failure only, with everything as it was. *)
Lemma reserve_effect (M : memory_t) (n : Z) (w : world) :
  match reserve sizeof_T grants junk M n w with
  | Normal _ w' => footprint w w'
  | Raised e w' => e = AllocationFailure /\ w' = w
  | Aborted => False
  | Undefined => True
  end.
Proof.
  rewrite reserve_eq.
  destruct (_ <? _); [|apply footprint_refl].
  pose proof (memory_allocate_outcome grants junk M
                (size_t (n * sizeof_T)) (cuda w)) as Ha.
  destruct (memory_allocate _ _ _ _ _) as [p st1|e st1| |]; try contradiction.
  - destruct Ha as (-> & Hcalls & _ & _ & Hother).
    destruct (get (data_ (this w))) as [[b0 o0]|] eqn:Hp.
    + pose proof (memory_free_outcome (get_deleter (data_ (this w)))
                    (Some (Ptr b0 o0)) st1) as Hfree.
      destruct (memory_free _ _ _) as [[] st2|? ?| |]; try contradiction;
        [|exact I].
      destruct Hfree as (Hc2 & _ & Hl2).
      unfold footprint, storage_block. cbn [this cuda data_ get get_deleter
        set_capacity set_data]. rewrite Hp, Hc2, Hcalls.
      split; [reflexivity|]. split; [now right|].
      split; [right; split; [discriminate|reflexivity]|].
      intros b Hb Hb'. rewrite Hl2.
      * apply Hother. intros ->. now apply Hb'.
      * intros o [= -> _]. now apply Hb.
    + unfold footprint, storage_block. cbn [this cuda data_ get get_deleter
        set_capacity set_data]. rewrite Hp.
      split; [reflexivity|]. split; [now right|]. split; [now left|].
      intros b _ Hb'. apply Hother. intros ->. now apply Hb'.
  - destruct Ha as [-> ->]. now destruct w.
Qed.

Lemma resize_effect (M : memory_t) (n : Z) (w : world) :
  match resize sizeof_T grants junk M n w with
  | Normal _ w' => footprint w w'
  | Raised e w' => e = AllocationFailure /\ w' = w
  | Aborted => False
  | Undefined => True
  end.
Proof.
  rewrite resize_eq. pose proof (reserve_effect M n w) as Hr.
  destruct (reserve _ _ _ _ _ _) as [[] w1|e w1| |]; auto.
Qed.

Lemma assign_effect (M : memory_t) (src : pointer) (n : Z) (w : world) :
  match assign sizeof_T grants junk faults M src n w with
  | Normal _ w' => footprint w w'
  | Raised e w' =>
      footprint w w' /\
      (e = AllocationFailure /\ w' = w \/ e = BackendOperationFailure)
  | Aborted => False
  | Undefined => True
  end.
Proof.
  rewrite assign_eq. pose proof (resize_effect M n w) as Hr.
  destruct (resize _ _ _ _ _ _) as [[] w1|e w1| |]; auto.
  2:{ destruct Hr as [-> ->]. auto using footprint_refl. }
  pose proof (memcpy_outcome faults (get (data_ (this w1))) src
                (size_t (sizeof_T * n)) (cuda w1)) as Hm.
  destruct (memcpy faults _ _ _ _) as [[] st2|e st2| |];
    try contradiction; [| |exact I].
  - destruct Hm as [[_ ->]|(_ & data & _ & Hst)].
    + now destruct w1.
    + eapply (footprint_write w w1 st2 0 _ (fun v => v));
        [assumption|reflexivity|]. rewrite ptr_add_0. exact Hst.
  - destruct Hm as (-> & data & Hst). split; [|now right].
    eapply (footprint_write w w1 st2 0 _ (fun v => v));
      [assumption|reflexivity|]. rewrite ptr_add_0. exact Hst.
Qed.

Lemma memset_effect (M : memory_t) (value : byte) (w : world) :
  match memset sizeof_T M value w with
  | Normal _ w' => footprint w w'
  | Raised _ _ | Aborted => False
  | Undefined => True
  end.
Proof.
  unfold memset, bind, data, size, gets, on_cuda, zoom.
  pose proof (memory_memset_outcome M (get (data_ (this w))) value
                (size_t (sizeof_T * size_ (this w))) (cuda w)) as Hm.
  destruct (memory_memset _ _ _ _ _) as [[] st2|? ?| |]; try contradiction;
    [|exact I].
  destruct Hm as [[_ ->]|(_ & Hst)].
  - destruct w. apply footprint_refl.
  - eapply (footprint_write w w st2 0 _ (fun v => v));
      [apply footprint_refl|reflexivity|]. rewrite ptr_add_0. exact Hst.
Qed.

Lemma push_back_effect (v : list byte) (w : world) :
  match push_back sizeof_T v w with
  | Normal _ w' => footprint w w'
  | Raised e w' => e = capacity_exceeded /\ w' = w
  | Aborted => False
  | Undefined => True
  end.
Proof.
  rewrite push_back_eq. destruct (_ <? _); [auto|].
  destruct (host_store _ _ _) as [st2|] eqn:Hst; [|exact I].
  apply host_store_store in Hst.
  eapply (footprint_write w w st2); eauto using footprint_refl.
Qed.

(** The effect of any member function. *)
Lemma call_effect (M : memory_t) (m : method) (w : world) :
  match call sizeof_T NDEBUG grants junk faults M m w with
  | Normal _ w' => footprint w w'
  | Raised e w' =>
      footprint w w' /\
      ((e = AllocationFailure \/ e = capacity_exceeded) /\ w' = w \/
       e = BackendOperationFailure /\ self_contained m = false)
  | Aborted | Undefined => True
  end.
Proof.
  destruct m as [n|n| |src n|first last|n|value|v]; cbn [call self_contained].
  - pose proof (reserve_effect M n w) as H.
    destruct (reserve _ _ _ _ _ _); intuition (subst; auto using footprint_refl).
  - pose proof (resize_effect M n w) as H.
    destruct (resize _ _ _ _ _ _); intuition (subst; auto using footprint_refl).
  - unfold clear, on_this, modify.
    apply (footprint_this w w (set_size 0)); auto using footprint_refl.
  - pose proof (assign_effect M src n w) as H.
    destruct (assign _ _ _ _ _ _ _ _); intuition.
  - unfold assign_range.
    destruct first as [[b1 o1]|], last as [[b2 o2]|]; try exact I.
    + destruct (decide _); [|exact I].
      destruct (negb NDEBUG && (o2 <? o1)); [exact I|].
      pose proof (assign_effect M (Some (Ptr b1 o1))
                    (size_t ((o2 - o1) / sizeof_T)) w) as H.
      destruct (assign _ _ _ _ _ _ _ _); intuition.
    + pose proof (assign_effect M None 0 w) as H.
      destruct (assign _ _ _ _ _ _ _ _); intuition.
  - unfold assign_zero, bind. pose proof (resize_effect M n w) as Hr.
    destruct (resize _ _ _ _ _ _) as [[] w1|e w1| |];
      [|intuition (subst; auto using footprint_refl)|exact I..].
    pose proof (memset_effect M x00 w1) as Hm.
    revert Hm. unfold memset, bind, data, size, gets, on_cuda, zoom.
    pose proof (memory_memset_outcome M (get (data_ (this w1))) x00
                  (size_t (sizeof_T * size_ (this w1))) (cuda w1)) as Hs.
    destruct (memory_memset _ _ _ _ _) as [[] st2|? ?| |];
      try contradiction; [|auto].
    intros _. destruct Hs as [[_ ->]|(_ & Hst)].
    + now destruct w1.
    + eapply (footprint_write w w1 st2 0 _ (fun v => v));
        [assumption|reflexivity|]. rewrite ptr_add_0. exact Hst.
  - pose proof (memset_effect M value w) as H.
    destruct (memset _ _ _ _); intuition.
  - pose proof (push_back_effect v w) as H.
    destruct (push_back _ _ _); intuition (subst; auto using footprint_refl).
Qed.

(** X1.  Whatever member function is called, on whatever vector and
    store: if it throws, then either the exception is the allocation
    failure or the capacity error and the vector and the store are
    exactly as they were before the call, or the exception is the backend
    failure; and whatever it throws, the call has stayed within its
    footprint: the deleter is the same, the storage pointer is the old
    one or the start of the block handed out during the call, and no
    block other than the old and the new storage has changed. *)
Theorem call_throws_unchanged (M : memory_t) (m : method) (w w' : world)
    (e : exception) :
  call sizeof_T NDEBUG grants junk faults M m w = Raised e w' ->
  ((e = AllocationFailure \/ e = capacity_exceeded) /\ w' = w \/
   e = BackendOperationFailure) /\
  footprint w w'.
Proof.
  intros Hcall. pose proof (call_effect M m w) as H.
  rewrite Hcall in H. tauto.
Qed.

(** X2.  Whatever member function is called, when it returns the deleter
    is the same, the storage pointer is the old one or the start of the
    block handed out during the call, [free] has been called at most
    once, by the deleter on the old storage, and no block other than the
    old and the new storage has changed, appeared or been released; in
    particular every block that was live and was not the storage is live
    with the same owner and bytes. *)
Theorem call_frame (M : memory_t) (m : method) (w w' : world) :
  call sizeof_T NDEBUG grants junk faults M m w = Normal tt w' ->
  footprint w w' /\
  (forall b blk,
     live (cuda w) b = Some blk -> storage_block (this w) <> Some b ->
     live (cuda w') b = Some blk).
Proof.
  intros Hcall. pose proof (call_effect M m w) as H.
  rewrite Hcall in H. split; [exact H|].
  intros b blk Hlive Hb. destruct H as (_ & Hp & _ & Hfr).
  rewrite <- Hlive. apply Hfr; [exact Hb|].
  unfold storage_block in *. destruct Hp as [->| ->]; [exact Hb|].
  apply live_length in Hlive. intros [= E]. lia.
Qed.

End Effects.

Section Validity.

Variable sizeof_T : Z.
Variable NDEBUG : bool.
Variable grants : memory_t -> Z -> backend -> bool.
Variable junk : nat -> nat -> byte.
Variable faults : pointer -> pointer -> Z -> backend -> option (list byte).

Hypothesis sizeof_pos : 0 < sizeof_T.

Lemma valid_storage (M : memory_t) (st : backend) (v : vector) :
  valid sizeof_T M st v -> 0 < capacity_ v ->
  exists b blk,
    get (data_ v) = Some (Ptr b 0) /\ live st b = Some blk /\
    owner blk = M /\
    Z.of_nat (length (bytes blk)) = capacity_ v * sizeof_T.
Proof.
  intros (_ & _ & Howns & HM & _) Hcap. unfold owns_storage in Howns.
  destruct (get (data_ v)) as [[b o]|]; [|lia].
  destruct (live st b) as [blk|] eqn:Hl; [|contradiction].
  destruct Howns as (-> & Hown & Hlen). exists b, blk.
  rewrite <- HM. auto.
Qed.

Lemma valid_releasable (M : memory_t) (st : backend) (v : vector) :
  valid sizeof_T M st v -> releasable st v.
Proof. intros (_ & _ & Howns & _). eapply owns_releasable; eauto. Qed.

(** The first [n] elements of a vector in good standing are the first
    [n * sizeof(T)] bytes of its storage. *)
Lemma elements_valid (M : memory_t) (st : backend) (v : vector) (n : Z) :
  valid sizeof_T M st v -> 0 <= n <= capacity_ v ->
  elements sizeof_T st (get (data_ v)) n
    = Some (take (Z.to_nat (n * sizeof_T)) (storage_bytes st v)).
Proof.
  intros Hv Hn. unfold elements.
  destruct (decide (n = 0)) as [->|Hnz]; [reflexivity|].
  destruct (valid_storage M st v Hv) as (b & blk & Hp & Hl & _ & Hlen);
    [lia|].
  unfold storage_bytes, load. rewrite Hp, Hl.
  rewrite decide_True by (unfold in_bounds; nia). reflexivity.
Qed.

Lemma owns_storage_store (st st' : backend) (p : pointer) (data : list byte)
    (v : vector) :
  owns_storage sizeof_T st v -> store st p data = Some st' ->
  owns_storage sizeof_T st' v.
Proof.
  unfold owns_storage. intros Howns Hst.
  destruct (get (data_ v)) as [[b o]|]; [|assumption].
  destruct (live st b) as [blk|] eqn:Hl; [|contradiction].
  destruct (store_shape st st' p data b blk Hst Hl) as (blk' & -> & Ho & Hn).
  rewrite Ho, Hn. assumption.
Qed.

(** A write into the storage of a vector in good standing: where it goes
    and what the storage holds afterwards. *)
Lemma store_valid (M : memory_t) (st : backend) (v : vector) (o : Z)
    (data : list byte) :
  valid sizeof_T M st v -> data <> [] -> 0 <= o ->
  o + Z.of_nat (length data) <= capacity_ v * sizeof_T ->
  exists st',
    store st (ptr_add (get (data_ v)) o) data = Some st' /\
    owns_storage sizeof_T st' v /\
    storage_bytes st' v = splice (storage_bytes st v) o data.
Proof.
  intros Hv Hne Ho Hfit.
  destruct (valid_storage M st v Hv) as (b & blk & Hp & Hl & _ & Hlen).
  { destruct data; [contradiction|]. cbn [length] in Hfit. nia. }
  rewrite Hp. cbn [ptr_add]. rewrite Z.add_0_l.
  destruct (store_in_bounds st b o blk data Hl) as (st' & Hst & _);
    [unfold in_bounds; lia|].
  exists st'. split; [exact Hst|]. split.
  - destruct Hv as (_ & _ & Howns & _). eapply owns_storage_store; eauto.
  - apply store_inv in Hst as (blk0 & Hl0 & _ & ->).
    rewrite Hl in Hl0. injection Hl0 as <-.
    unfold storage_bytes. rewrite Hp, Hl.
    erewrite live_insert by eassumption. reflexivity.
Qed.

Lemma take_splice (bs data : list byte) (o : Z) :
  0 <= o -> o + Z.of_nat (length data) <= Z.of_nat (length bs) ->
  take (Z.to_nat o + length data) (splice bs o data)
    = take (Z.to_nat o) bs ++ data.
Proof.
  intros Ho Hb. unfold splice. rewrite app_assoc.
  rewrite take_app_length'; [reflexivity|].
  rewrite length_app, length_take. lia.
Qed.

Lemma drop_splice (bs data : list byte) (o : Z) :
  0 <= o -> o + Z.of_nat (length data) <= Z.of_nat (length bs) ->
  drop (Z.to_nat o + length data) (splice bs o data)
    = drop (Z.to_nat o + length data) bs.
Proof.
  intros Ho Hb. unfold splice. rewrite app_assoc.
  rewrite drop_app_length'; [reflexivity|].
  rewrite length_app, length_take. lia.
Qed.

Lemma fits_size_t (n : Z) :
  0 <= n -> n * sizeof_T < SIZE_MAX ->
  is_size_t n /\ size_t (n * sizeof_T) = n * sizeof_T /\
  size_t (sizeof_T * n) = n * sizeof_T.
Proof.
  intros Hn Hfit. unfold is_size_t.
  split; [nia|]. rewrite (Z.mul_comm sizeof_T).
  rewrite size_t_small by (unfold is_size_t; nia). auto.
Qed.

(** [reserve] on a vector in good standing neither aborts nor runs into
    undefined behaviour, and leaves a vector in good standing. *)
Lemma reserve_valid (M : memory_t) (n : Z) (w : world) :
  valid sizeof_T M (cuda w) (this w) ->
  0 <= n -> n * sizeof_T < SIZE_MAX ->
  match reserve sizeof_T grants junk M n w with
  | Normal _ w' =>
      valid sizeof_T M (cuda w') (this w') /\
      n <= capacity_ (this w') /\ size_ (this w') = size_ (this w)
  | Raised e w' => w' = w
  | Aborted | Undefined => False
  end.
Proof.
  intros Hv Hn Hfit.
  destruct (Z.le_gt_cases n (capacity_ (this w))) as [Hle|Hgt].
  { rewrite reserve_keep by assumption. auto. }
  destruct (grants M (size_t (n * sizeof_T)) (cuda w)) eqn:Hg.
  2:{ now rewrite reserve_refused by assumption. }
  pose proof (valid_releasable M _ _ Hv) as Hrel.
  rewrite reserve_grow by assumption. cbn [this cuda size_ capacity_].
  split; [|split; [lia|reflexivity]].
  destruct (fits_size_t n Hn Hfit) as (Ht & Hbytes & _).
  destruct Hv as ((Hsz & Hcap) & Hinv & Howns & HM & Hmax).
  unfold valid, well_typed, invariant, is_size_t in *.
  cbn [size_ capacity_ data_ get_deleter].
  repeat (split; [first [assumption | lia]|]). split; [|auto].
  unfold owns_storage. cbn [data_ get get_deleter capacity_].
  set (b' := length (blocks (cuda w))).
  set (content := uninitialised junk b' (size_t (n * sizeof_T))).
  assert (Hfresh : forall calls,
            live (Backend (blocks (cuda w) ++ [Some (Block M content)]) calls)
                 b' = Some (Block M content)) by (intros; apply live_fresh).
  assert (Hlen : Z.of_nat (length content) = n * sizeof_T).
  { subst content. rewrite length_uninitialised, Hbytes. lia. }
  unfold releasable in Hrel.
  destruct (get (data_ (this w))) as [[b0 o0]|].
  - destruct (live (cuda w) b0) as [blk0|] eqn:Hl0; [|contradiction].
    apply live_length in Hl0.
    rewrite (live_insert_ne _ _ _ _ _ (free_calls (cuda w)))
      by (subst b'; lia).
    rewrite Hfresh. cbn [owner bytes]. auto.
  - rewrite Hfresh. cbn [owner bytes]. auto.
Qed.

Lemma valid_set_size (M : memory_t) (st : backend) (v : vector) (n : Z) :
  valid sizeof_T M st v -> 0 <= n <= capacity_ v ->
  valid sizeof_T M st (set_size n v).
Proof.
  intros ((Hsz & Hcap) & Hinv & Howns & HM & Hmax) Hn.
  unfold valid, well_typed, invariant, is_size_t in *.
  cbn [set_size size_ capacity_ data_]. repeat split; auto; lia.
Qed.

Lemma resize_valid (M : memory_t) (n : Z) (w : world) :
  valid sizeof_T M (cuda w) (this w) ->
  0 <= n -> n * sizeof_T < SIZE_MAX ->
  match resize sizeof_T grants junk M n w with
  | Normal _ w' =>
      valid sizeof_T M (cuda w') (this w') /\ size_ (this w') = n
  | Raised e w' => w' = w
  | Aborted | Undefined => False
  end.
Proof.
  intros Hv Hn Hfit. rewrite resize_eq.
  pose proof (reserve_valid M n w Hv Hn Hfit) as Hr.
  destruct (reserve _ _ _ _ _ _) as [[] w1|e w1| |]; auto.
  destruct Hr as (Hv1 & Hcap & _). cbn [this cuda].
  split; [|reflexivity]. apply valid_set_size; [assumption|lia].
Qed.

(** [memset] on a vector in good standing sets the bytes of its [size]
    elements and nothing else of the storage. *)
Lemma memset_valid (M : memory_t) (value : byte) (w : world) :
  valid sizeof_T M (cuda w) (this w) ->
  exists st',
    memset sizeof_T M value w = Normal tt (World (this w) st') /\
    valid sizeof_T M st' (this w) /\
    storage_bytes st' (this w) =
      replicate (Z.to_nat (size_ (this w) * sizeof_T)) value ++
      drop (Z.to_nat (size_ (this w) * sizeof_T))
           (storage_bytes (cuda w) (this w)).
Proof.
  intros Hv.
  pose proof Hv as ((Hsz & Hcap) & Hinv & Howns & HM & Hmax).
  unfold well_typed, invariant, is_size_t in *.
  destruct (fits_size_t (size_ (this w))) as (_ & _ & Hbytes); [lia|nia|].
  unfold memset, bind, data, size, gets, on_cuda, zoom, memory_memset.
  rewrite Hbytes.
  destruct (decide (size_ (this w) * sizeof_T = 0)) as [Hz|Hnz].
  - exists (cuda w). destruct w as [v st]. cbn [this cuda] in *.
    split; [reflexivity|]. split; [assumption|].
    rewrite Hz. now rewrite drop_0.
  - rewrite decide_True by nia.
    destruct (store_valid M (cuda w) (this w) 0
                (replicate (Z.to_nat (size_ (this w) * sizeof_T)) value) Hv)
      as (st' & Hst & Howns' & Hbs).
    + destruct (Z.to_nat (size_ (this w) * sizeof_T)) eqn:E;
        [nia|discriminate].
    + lia.
    + rewrite length_replicate. nia.
    + rewrite ptr_add_0 in Hst. rewrite Hst. exists st'.
      split; [reflexivity|]. split.
      * unfold valid, well_typed, invariant, is_size_t. auto 10.
      * rewrite Hbs. unfold splice. cbn [Z.to_nat take app Nat.add].
        now rewrite length_replicate.
Qed.

(** [push_back] below capacity on a host vector in good standing appends
    the element after the [size] elements it holds. *)
Lemma push_back_valid (v : list byte) (w : world) :
  valid sizeof_T host_memory_t (cuda w) (this w) ->
  Z.of_nat (length v) = sizeof_T ->
  size_ (this w) < capacity_ (this w) ->
  exists st',
    push_back sizeof_T v w =
      Normal tt (World (set_size (size_ (this w) + 1) (this w)) st') /\
    valid sizeof_T host_memory_t st'
      (set_size (size_ (this w) + 1) (this w)) /\
    take (Z.to_nat ((size_ (this w) + 1) * sizeof_T))
         (storage_bytes st' (this w)) =
      take (Z.to_nat (size_ (this w) * sizeof_T))
           (storage_bytes (cuda w) (this w)) ++ v.
Proof.
  intros Hv Hlen Hlt.
  pose proof Hv as ((Hsz & Hcap) & Hinv & Howns & HM & Hmax).
  unfold well_typed, invariant, is_size_t in *.
  rewrite push_back_eq.
  rewrite size_t_small by (unfold is_size_t; lia).
  destruct (Z.ltb_spec (capacity_ (this w)) (size_ (this w) + 1)); [lia|].
  destruct (valid_storage host_memory_t (cuda w) (this w) Hv)
    as (b & blk & Hp & Hl & Hown & Hblk); [lia|].
  destruct (store_valid host_memory_t (cuda w) (this w)
              (size_ (this w) * sizeof_T) v Hv)
    as (st' & Hst & Howns' & Hbs).
  - intros ->. cbn in Hlen. lia.
  - nia.
  - nia.
  - assert (Hhost : host_store (cuda w)
                      (ptr_add (get (data_ (this w)))
                               (size_ (this w) * sizeof_T)) v = Some st').
    { rewrite Hp in *. cbn [ptr_add] in *.
      now rewrite (host_store_host _ _ _ blk v Hl Hown). }
    rewrite Hhost. exists st'. split; [reflexivity|]. split.
    + unfold valid, well_typed, invariant, is_size_t.
      cbn [set_size size_ capacity_ data_]. repeat split; auto; lia.
    + rewrite Hbs.
      replace (Z.to_nat ((size_ (this w) + 1) * sizeof_T))
        with (Z.to_nat (size_ (this w) * sizeof_T) + length v)%nat by nia.
      apply take_splice; [nia|].
      unfold storage_bytes. rewrite Hp, Hl. nia.
Qed.

(** [push_back] below capacity on a device vector in good standing
    dereferences device memory in host code. *)
Lemma push_back_device (v : list byte) (w : world) :
  valid sizeof_T device_memory_t (cuda w) (this w) ->
  size_ (this w) < capacity_ (this w) ->
  push_back sizeof_T v w = Undefined.
Proof.
  intros Hv Hlt.
  pose proof Hv as ((Hsz & Hcap) & Hinv & Howns & HM & Hmax).
  unfold well_typed, invariant, is_size_t in *.
  destruct (valid_storage device_memory_t (cuda w) (this w) Hv)
    as (b & blk & Hp & Hl & Hown & Hblk); [lia|].
  rewrite push_back_eq.
  rewrite size_t_small by (unfold is_size_t; lia).
  destruct (Z.ltb_spec (capacity_ (this w)) (size_ (this w) + 1)); [lia|].
  rewrite Hp. cbn [ptr_add].
  now rewrite (host_store_device _ _ _ blk v Hl Hown).
Qed.

Lemma valid_store (M : memory_t) (st st' : backend) (p : pointer)
    (data : list byte) (v : vector) :
  valid sizeof_T M st v -> store st p data = Some st' ->
  valid sizeof_T M st' v.
Proof.
  intros (Ht & Hinv & Howns & HM & Hmax) Hst.
  unfold valid. eauto 10 using owns_storage_store.
Qed.

(** What a call does on a vector in good standing. *)
Lemma call_valid (M : memory_t) (m : method) (w : world) :
  valid sizeof_T M (cuda w) (this w) -> method_fits sizeof_T m ->
  match call sizeof_T NDEBUG grants junk faults M m w with
  | Normal _ w' | Raised _ w' => valid sizeof_T M (cuda w') (this w')
  | Aborted => False
  | Undefined =>
      self_contained m = false \/
      host_only m = true /\ M = device_memory_t
  end.
Proof.
  intros Hv Hm.
  assert (Hassign : forall src n, 0 <= n -> n * sizeof_T < SIZE_MAX ->
            match assign sizeof_T grants junk faults M src n w with
            | Normal _ w' | Raised _ w' =>
                valid sizeof_T M (cuda w') (this w')
            | Aborted => False
            | Undefined => True
            end).
  { intros src n Hn Hfit. rewrite assign_eq.
    pose proof (resize_valid M n w Hv Hn Hfit) as Hr.
    destruct (resize _ _ _ _ _ _) as [[] w1|e w1| |]; auto;
      [|now subst w1].
    destruct Hr as [Hv1 _].
    pose proof (memcpy_outcome faults (get (data_ (this w1))) src
                  (size_t (sizeof_T * n)) (cuda w1)) as Hc.
    destruct (memcpy faults _ _ _ _) as [[] st2|? st2| |];
      try contradiction; [| |exact I]; cbn [this cuda].
    - destruct Hc as [[_ ->]|(_ & data & _ & Hst)]; [assumption|].
      eapply valid_store; eauto.
    - destruct Hc as (_ & data & Hst). eapply valid_store; eauto. }
  destruct m as [n|n| |src n|first last|n|value|v];
    cbn [call method_fits self_contained host_only] in *.
  - destruct Hm as [Hn Hfit].
    pose proof (reserve_valid M n w Hv Hn Hfit) as Hr.
    destruct (reserve _ _ _ _ _ _); try tauto. now subst.
  - destruct Hm as [Hn Hfit].
    pose proof (resize_valid M n w Hv Hn Hfit) as Hr.
    destruct (resize _ _ _ _ _ _); try tauto. now subst.
  - unfold clear, on_this, modify. cbn [this cuda].
    apply valid_set_size; [assumption|].
    destruct Hv as ((_ & Hcap) & _). unfold is_size_t in Hcap. lia.
  - destruct Hm as [Hn Hfit]. specialize (Hassign src n Hn Hfit).
    destruct (assign _ _ _ _ _ _ _ _); auto.
  - unfold assign_range.
    destruct first as [[b1 o1]|], last as [[b2 o2]|]; try (now left).
    + destruct (decide _); [|now left].
      destruct Hm as [Ho Hd].
      destruct (Z.ltb_spec o2 o1); [lia|]. rewrite andb_false_r.
      assert (Hq : 0 <= (o2 - o1) / sizeof_T <= o2 - o1).
      { split; [apply Z.div_pos; lia|].
        apply Z.div_le_upper_bound; nia. }
      assert (Hqs : (o2 - o1) / sizeof_T * sizeof_T <= o2 - o1).
      { rewrite Z.mul_comm. apply Z.mul_div_le. lia. }
      rewrite size_t_small by (unfold is_size_t; lia).
      specialize (Hassign (Some (Ptr b1 o1)) ((o2 - o1) / sizeof_T)
                    ltac:(lia) ltac:(lia)).
      destruct (assign _ _ _ _ _ _ _ _); auto.
    + specialize (Hassign None 0 ltac:(lia) ltac:(unfold SIZE_MAX; lia)).
      destruct (assign _ _ _ _ _ _ _ _); auto.
  - destruct Hm as [Hn Hfit]. unfold assign_zero, bind.
    pose proof (resize_valid M n w Hv Hn Hfit) as Hr.
    destruct (resize _ _ _ _ _ _) as [[] w1|e w1| |];
      try contradiction; auto; [|now subst w1].
    destruct Hr as [Hv1 _].
    destruct (memset_valid M x00 w1 Hv1) as (st' & -> & Hv' & _).
    exact Hv'.
  - destruct (memset_valid M value w Hv) as (st' & -> & Hv' & _).
    exact Hv'.
  - pose proof Hv as ((Hsz & Hcap) & Hinv & _ & _ & Hmax).
    unfold invariant, is_size_t in *.
    destruct (Z.eq_dec (size_ (this w)) (capacity_ (this w))) as [Heq|Hne].
    + rewrite push_back_eq.
      rewrite size_t_small by (unfold is_size_t; nia).
      destruct (Z.ltb_spec (capacity_ (this w)) (size_ (this w) + 1));
        [assumption|lia].
    + destruct M.
      * destruct (push_back_valid v w Hv Hm ltac:(lia))
          as (st' & -> & Hv' & _).
        exact Hv'.
      * rewrite (push_back_device v w Hv ltac:(lia)). now right.
Qed.

(** X3.  Good standing is an invariant of the member functions: called
    with element counts below [SIZE_MAX] bytes on a vector of policy [M]
    that owns a block of exactly [capacity] elements, with
    [size <= capacity], every member function leaves such a vector,
    whether it returns or throws. *)
Theorem valid_preserved (M : memory_t) (m : method) (w : world) :
  valid sizeof_T M (cuda w) (this w) -> method_fits sizeof_T m ->
  on_state (fun w' => valid sizeof_T M (cuda w') (this w'))
           (call sizeof_T NDEBUG grants junk faults M m w).
Proof.
  intros Hv Hm. pose proof (call_valid M m w Hv Hm) as H.
  destruct (call _ _ _ _ _ _ _ _) as [[] w'|e w'| |]; cbn [on_state]; auto.
Qed.


Lemma push_back_all_fits (vs : list (list byte)) :
  forall w : world,
    valid sizeof_T host_memory_t (cuda w) (this w) ->
    Forall (fun v => Z.of_nat (length v) = sizeof_T) vs ->
    size_ (this w) + Z.of_nat (length vs) <= capacity_ (this w) ->
    exists st',
      push_back_all sizeof_T vs w =
        Normal tt (World (set_size (size_ (this w) + Z.of_nat (length vs))
                                   (this w)) st') /\
      valid sizeof_T host_memory_t st'
        (set_size (size_ (this w) + Z.of_nat (length vs)) (this w)) /\
      take (Z.to_nat ((size_ (this w) + Z.of_nat (length vs)) * sizeof_T))
           (storage_bytes st' (this w)) =
        take (Z.to_nat (size_ (this w) * sizeof_T))
             (storage_bytes (cuda w) (this w)) ++ concat vs.
Proof.
  induction vs as [|v vs IH]; intros w Hv Hall Hfit.
  - exists (cuda w). cbn [push_back_all length concat].
    rewrite Z.add_0_r, app_nil_r.
    destruct w as [[sz cap d] st]. auto.
  - apply Forall_cons in Hall as [Hlen Hall]. cbn [length] in Hfit.
    destruct (push_back_valid v w Hv Hlen ltac:(lia))
      as (st1 & Hp & Hv1 & Hb1).
    destruct (IH (World (set_size (size_ (this w) + 1) (this w)) st1)
                Hv1 Hall) as (st' & Hrun & Hv' & Hb');
      [cbn [this size_ capacity_ set_size]; lia|].
    cbn [this cuda size_ set_size capacity_ data_] in Hrun, Hv', Hb'.
    replace (size_ (this w) + 1 + Z.of_nat (length vs))
      with (size_ (this w) + Z.of_nat (length (v :: vs))) in Hrun, Hv', Hb'
      by (cbn [length]; lia).
    exists st'. cbn [push_back_all]. unfold bind. rewrite Hp.
    split; [exact Hrun|]. split; [exact Hv'|].
    unfold storage_bytes in *. cbn [set_size data_] in Hb'.
    rewrite Hb', Hb1. cbn [concat]. now rewrite app_assoc.
Qed.

Lemma push_back_all_full (vs : list (list byte)) :
  forall w : world,
    valid sizeof_T host_memory_t (cuda w) (this w) ->
    Forall (fun v => Z.of_nat (length v) = sizeof_T) vs ->
    capacity_ (this w) < size_ (this w) + Z.of_nat (length vs) ->
    exists st',
      push_back_all sizeof_T vs w =
        Raised capacity_exceeded
               (World (set_size (capacity_ (this w)) (this w)) st') /\
      valid sizeof_T host_memory_t st' (set_size (capacity_ (this w)) (this w)) /\
      take (Z.to_nat (capacity_ (this w) * sizeof_T))
           (storage_bytes st' (this w)) =
        take (Z.to_nat (size_ (this w) * sizeof_T))
             (storage_bytes (cuda w) (this w)) ++
        concat (take (Z.to_nat (capacity_ (this w) - size_ (this w))) vs).
Proof.
  induction vs as [|v vs IH]; intros w Hv Hall Hfull.
  - destruct Hv as (_ & Hinv & _). unfold invariant in Hinv.
    cbn [length] in Hfull. lia.
  - apply Forall_cons in Hall as [Hlen Hall]. cbn [length] in Hfull.
    pose proof Hv as ((Hsz & Hcap) & Hinv & _ & _ & Hmax).
    unfold invariant, is_size_t in *.
    destruct (Z.eq_dec (size_ (this w)) (capacity_ (this w))) as [Heq|Hne].
    + exists (cuda w). cbn [push_back_all]. unfold bind.
      rewrite push_back_eq.
      rewrite size_t_small by (unfold is_size_t; nia).
      destruct (Z.ltb_spec (capacity_ (this w)) (size_ (this w) + 1));
        [|lia].
      rewrite <- Heq, Z.sub_diag. cbn [Z.to_nat take concat].
      rewrite app_nil_r. destruct w as [[sz cap d] st]. auto.
    + destruct (push_back_valid v w Hv Hlen ltac:(lia))
        as (st1 & Hp & Hv1 & Hb1).
      destruct (IH (World (set_size (size_ (this w) + 1) (this w)) st1)
                  Hv1 Hall) as (st' & Hrun & Hv' & Hb');
        [cbn [this size_ capacity_ set_size]; lia|].
      cbn [this cuda size_ set_size capacity_ data_] in Hrun, Hv', Hb'.
      exists st'. cbn [push_back_all]. unfold bind. rewrite Hp.
      split; [exact Hrun|]. split; [exact Hv'|].
      unfold storage_bytes in *. cbn [set_size data_] in Hb'.
      rewrite Hb', Hb1.
      replace (Z.to_nat (capacity_ (this w) - size_ (this w)))
        with (S (Z.to_nat (capacity_ (this w) - (size_ (this w) + 1))))
        by lia.
      cbn [take concat]. now rewrite app_assoc.
Qed.

(** X5.  On a host vector in good standing that holds [size] elements,
    a run of [push_back] calls appends the pushed elements, in order,
    after the elements held, as long as there is room; when the elements
    outnumber the room, exactly [capacity - size] of them are appended,
    the next call throws the capacity error, and the vector stays
    full. *)
Theorem push_back_all_spec (vs : list (list byte)) (w : world) :
  valid sizeof_T host_memory_t (cuda w) (this w) ->
  Forall (fun v => Z.of_nat (length v) = sizeof_T) vs ->
  exists held,
    elements sizeof_T (cuda w) (get (data_ (this w))) (size_ (this w))
      = Some held /\
    (size_ (this w) + Z.of_nat (length vs) <= capacity_ (this w) ->
     exists st',
       push_back_all sizeof_T vs w =
         Normal tt (World (set_size (size_ (this w) + Z.of_nat (length vs))
                                    (this w)) st') /\
       elements sizeof_T st' (get (data_ (this w)))
                (size_ (this w) + Z.of_nat (length vs))
         = Some (held ++ concat vs)) /\
    (capacity_ (this w) < size_ (this w) + Z.of_nat (length vs) ->
     exists st',
       push_back_all sizeof_T vs w =
         Raised capacity_exceeded
                (World (set_size (capacity_ (this w)) (this w)) st') /\
       elements sizeof_T st' (get (data_ (this w))) (capacity_ (this w))
         = Some (held ++
                 concat (take (Z.to_nat (capacity_ (this w) - size_ (this w)))
                              vs))).
Proof.
  intros Hv Hall.
  pose proof Hv as ((Hsz & Hcap) & Hinv & _).
  unfold invariant, is_size_t in *.
  eexists. split; [apply (elements_valid host_memory_t); [assumption|lia]|]. split.
  - intros Hfit.
    destruct (push_back_all_fits vs w Hv Hall Hfit)
      as (st' & Hrun & Hv' & Hb).
    exists st'. split; [exact Hrun|].
    rewrite <- Hb.
    apply (elements_valid host_memory_t st' _ _ Hv').
    cbn [set_size capacity_]. lia.
  - intros Hfull.
    destruct (push_back_all_full vs w Hv Hall Hfull)
      as (st' & Hrun & Hv' & Hb).
    exists st'. split; [exact Hrun|].
    rewrite <- Hb.
    apply (elements_valid host_memory_t st' _ _ Hv').
    cbn [set_size capacity_]. lia.
Qed.



Lemma length_concat_uniform (elts : list (list byte)) :
  Forall (fun v => Z.of_nat (length v) = sizeof_T) elts ->
  Z.of_nat (length (concat elts)) = Z.of_nat (length elts) * sizeof_T.
Proof.
  induction 1 as [|v elts Hv _ IH]; [reflexivity|].
  cbn [concat length]. rewrite length_app. lia.
Qed.

Lemma valid_default (M : memory_t) (st : backend) :
  valid sizeof_T M st (vector_default M).
Proof.
  unfold valid, well_typed, invariant, is_size_t, owns_storage, SIZE_MAX.
  cbn. repeat split; lia.
Qed.

(** X10.  The initializer-list constructor, given elements of
    [sizeof(T)] bytes and an allocation that the host policy grants,
    returns a host vector in good standing whose size is the number of
    elements and whose elements are the listed ones, in order; given the
    empty list it returns the default vector and leaves the store
    alone. *)
Theorem initializer_list_roundtrip (elts : list (list byte)) (st : backend) :
  Forall (fun v => Z.of_nat (length v) = sizeof_T) elts ->
  Z.of_nat (length elts) * sizeof_T < SIZE_MAX ->
  (elts <> [] ->
   grants host_memory_t (size_t (Z.of_nat (length elts) * sizeof_T)) st
     = true) ->
  exists v st',
    vector_of_initializer_list sizeof_T grants junk elts st = Normal v st' /\
    size_ v = Z.of_nat (length elts) /\
    valid sizeof_T host_memory_t st' v /\
    elements sizeof_T st' (get (data_ v)) (size_ v) = Some (concat elts) /\
    (elts = [] -> v = vector_default host_memory_t /\ st' = st).
Proof.
  intros Hall Hfit Hg.
  assert (Hn : size_t (Z.of_nat (length elts)) = Z.of_nat (length elts))
    by (apply size_t_small; unfold is_size_t; nia).
  unfold vector_of_initializer_list, construct, bind, data, gets, on_cuda,
    zoom. rewrite Hn.
  set (w0 := World (vector_default host_memory_t) st).
  pose proof (valid_default host_memory_t st) as Hv0.
  pose proof (resize_valid host_memory_t (Z.of_nat (length elts)) w0 Hv0
                ltac:(lia) Hfit) as Hr.
  assert (Hret : exists w1,
            resize sizeof_T grants junk host_memory_t
                   (Z.of_nat (length elts)) w0 = Normal tt w1 /\
            (elts = [] -> w1 = w0)).
  { rewrite resize_eq. destruct elts as [|e0 elts'].
    - rewrite reserve_keep by (cbn; lia). eexists. split; [reflexivity|].
      reflexivity.
    - rewrite reserve_grow;
        [eexists; split; [reflexivity|discriminate]
        |cbn [length w0 this capacity_ vector_default]; lia
        |apply Hg; discriminate
        |exact I]. }
  destruct Hret as (w1 & Hw1 & Hempty). rewrite Hw1 in *.
  destruct Hr as [Hv1 Hs1].
  unfold std_copy. destruct elts as [|e0 elts'] eqn:He.
  - rewrite (Hempty eq_refl). exists (vector_default host_memory_t), st.
    split; [reflexivity|]. split; [reflexivity|].
    split; [apply valid_default|]. split; [reflexivity|]. auto.
  - rewrite <- He in *. clear Hempty.
    pose proof Hv1 as (_ & Hinv1 & _). unfold invariant in Hinv1.
    pose proof (length_concat_uniform elts Hall) as Hlen.
    destruct (store_valid host_memory_t (cuda w1) (this w1) 0 (concat elts)
                Hv1) as (st2 & Hst & Howns & Hbs).
    + intros Hnil. rewrite Hnil in Hlen. rewrite He in Hlen.
      cbn [length] in Hlen. nia.
    + lia.
    + nia.
    + rewrite ptr_add_0 in Hst.
      assert (Hhost : host_store (cuda w1) (get (data_ (this w1)))
                        (concat elts) = Some st2).
      { destruct (valid_storage host_memory_t (cuda w1) (this w1) Hv1)
          as (b1 & blk1 & Hp1 & Hl1 & Hown1 & _);
          [rewrite He in Hs1; cbn [length] in Hs1; lia|].
        rewrite Hp1 in *.
        now rewrite (host_store_host _ _ _ blk1 _ Hl1 Hown1). }
      rewrite He in Hhost |- *. rewrite Hhost.
      rewrite <- He in *.
      exists (this w1), st2. split; [reflexivity|]. split; [exact Hs1|].
      assert (Hv2 : valid sizeof_T host_memory_t st2 (this w1)).
      { destruct Hv1 as (? & ? & ? & ? & ?). unfold valid. auto 10. }
      split; [exact Hv2|]. split.
      * rewrite (elements_valid host_memory_t st2 _ _ Hv2) by lia.
        rewrite Hbs, Hs1. f_equal.
        replace (Z.to_nat (Z.of_nat (length elts) * sizeof_T))
          with (Z.to_nat 0 + length (concat elts))%nat by lia.
        rewrite take_splice; [reflexivity|lia|].
        destruct (valid_storage host_memory_t (cuda w1) (this w1) Hv1)
          as (b & blk & Hp & Hl & _ & Hblk);
          [rewrite He in Hs1; cbn [length] in Hs1; lia|].
        unfold storage_bytes. rewrite Hp, Hl. nia.
      * rewrite He. discriminate.
Qed.

(** X11.  [assign(begin, end)] on a range of [k] elements is
    [assign(begin, k)]; on an empty range it sets the size to zero and
    touches nothing else; on a range passed in the wrong order it fails
    its assertion, when assertions are compiled in. *)
Theorem assign_range_spec (M : memory_t) (b : nat) (o : Z) (w : world) :
  (forall k, 0 <= k -> k * sizeof_T <= SIZE_MAX ->
     assign_range sizeof_T NDEBUG grants junk faults M
       (Some (Ptr b o)) (Some (Ptr b (o + k * sizeof_T))) w =
     assign sizeof_T grants junk faults M (Some (Ptr b o)) k w) /\
  (0 <= capacity_ (this w) ->
   assign_range sizeof_T NDEBUG grants junk faults M
     (Some (Ptr b o)) (Some (Ptr b o)) w =
   Normal tt (World (set_size 0 (this w)) (cuda w))) /\
  (forall o', o' < o -> NDEBUG = false ->
     assign_range sizeof_T NDEBUG grants junk faults M
       (Some (Ptr b o)) (Some (Ptr b o')) w = Aborted).
Proof.
  assert (Hk : forall k, 0 <= k -> k * sizeof_T <= SIZE_MAX ->
            assign_range sizeof_T NDEBUG grants junk faults M
              (Some (Ptr b o)) (Some (Ptr b (o + k * sizeof_T))) w =
            assign sizeof_T grants junk faults M (Some (Ptr b o)) k w).
  { intros k Hk Hfit. unfold assign_range.
    rewrite decide_True by reflexivity.
    destruct (Z.ltb_spec (o + k * sizeof_T) o); [nia|].
    rewrite andb_false_r.
    replace (o + k * sizeof_T - o) with (k * sizeof_T) by lia.
    rewrite Z.div_mul by lia.
    now rewrite size_t_small by (unfold is_size_t; nia). }
  split; [exact Hk|]. split.
  - intros Hcap. specialize (Hk 0 ltac:(lia) ltac:(unfold SIZE_MAX; lia)).
    rewrite Z.mul_0_l, Z.add_0_r in Hk. rewrite Hk.
    rewrite assign_eq, resize_eq, reserve_keep by assumption.
    unfold memcpy. rewrite Z.mul_0_r. reflexivity.
  - intros o' Ho ->. unfold assign_range.
    rewrite decide_True by reflexivity.
    destruct (Z.ltb_spec o' o); [reflexivity|lia].
Qed.


End Validity.

Section Construction.

Variable sizeof_T : Z.
Variable grants : memory_t -> Z -> backend -> bool.
Variable junk : nat -> nat -> byte.
Variable faults : pointer -> pointer -> Z -> backend -> option (list byte).

Lemma releasable_store (st st' : backend) (p : pointer) (data : list byte)
    (v : vector) :
  releasable st v -> store st p data = Some st' -> releasable st' v.
Proof.
  unfold releasable. intros Hrel Hst.
  destruct (get (data_ v)) as [[b o]|]; [|exact I].
  destruct (live st b) as [blk|] eqn:Hl; [|contradiction].
  destruct (store_shape st st' p data b blk Hst Hl) as (blk' & -> & Ho & _).
  now rewrite Ho.
Qed.

Lemma resize_well_behaved (M : memory_t) (n : Z) :
  well_behaved M (resize sizeof_T grants junk M n).
Proof.
  intros w. pose proof (resize_effect sizeof_T grants junk M n w) as He.
  rewrite resize_eq in *.
  destruct (reserve sizeof_T grants junk M n w) as [[] w1|e w1| |] eqn:Hr;
    auto.
  - split; [exact He|]. intros Hrel HM.
    destruct (reserve_releasable sizeof_T grants junk M n w w1 Hrel HM Hr)
      as [H1 _].
    exact H1.
  - destruct He as [-> ->]. auto using footprint_refl.
Qed.

Lemma assign_well_behaved (M : memory_t) (src : pointer) (n : Z) :
  well_behaved M (assign sizeof_T grants junk faults M src n).
Proof.
  intros w.
  pose proof (assign_effect sizeof_T grants junk faults M src n w) as He.
  rewrite assign_eq in *.
  pose proof (resize_well_behaved M n w) as Hr.
  destruct (resize sizeof_T grants junk M n w) as [[] w1|e w1| |]; auto.
  pose proof (memcpy_outcome faults (get (data_ (this w1))) src
                (size_t (sizeof_T * n)) (cuda w1)) as Hc.
  destruct (memcpy faults _ _ _ _) as [[] st2|e st2| |];
    try contradiction; [| |exact I].
  - split; [exact He|]. intros Hrel HM. cbn [this cuda].
    destruct Hr as [_ Hr]. specialize (Hr Hrel HM).
    destruct Hc as [[_ ->]|(_ & data & _ & Hst)]; [exact Hr|].
    eapply releasable_store; eauto.
  - destruct He as [He _]. destruct Hc as (-> & data & Hst).
    split; [exact He|]. split; [|now right].
    intros Hrel HM. cbn [this cuda].
    destruct Hr as [_ Hr]. specialize (Hr Hrel HM).
    eapply releasable_store; eauto.
Qed.

Lemma initializer_list_well_behaved (elts : list (list byte)) :
  well_behaved host_memory_t
    (let! _ := resize sizeof_T grants junk host_memory_t
                 (size_t (Z.of_nat (length elts))) in
     let! dst := data in
     on_cuda (std_copy elts dst)).
Proof.
  intros w. unfold bind, data, gets, on_cuda, zoom.
  pose proof (resize_well_behaved host_memory_t
                (size_t (Z.of_nat (length elts))) w) as Hr.
  destruct (resize _ _ _ _ _ _) as [[] w1|e w1| |]; auto.
  unfold std_copy. destruct elts as [|e0 elts]; [now destruct w1|].
  destruct (host_store _ _ _) as [st2|] eqn:Hst; [|exact I].
  apply host_store_store in Hst.
  destruct Hr as [Hf Hr]. cbn [this cuda]. split.
  - eapply (footprint_write w w1 st2 0 _ (fun v => v));
      [assumption|reflexivity|]. rewrite ptr_add_0. exact Hst.
  - intros Hrel HM. eapply releasable_store; eauto.
Qed.

Lemma destroy_releasable (v : vector) (st : backend) :
  releasable st v ->
  exists st',
    destroy (World v st) = Normal tt (World v st') /\
    free_calls st' =
      free_calls st ++
        match get (data_ v) with
        | Some p => [(get_deleter (data_ v), Some p)]
        | None => []
        end /\
    (forall b, storage_block v <> Some b -> live st' b = live st b) /\
    (forall b, storage_block v = Some b -> live st' b = None).
Proof.
  unfold releasable, destroy, storage_block, bind, gets, on_cuda, zoom, ret.
  cbn [this cuda]. intros Hrel.
  destruct (get (data_ v)) as [[b o]|].
  - unfold memory_free. cbn [this cuda].
    destruct (live st b) as [blk|]; [|contradiction].
    rewrite decide_True by assumption.
    eexists. split; [reflexivity|]. cbn [free_calls].
    split; [reflexivity|]. split.
    + intros b' Hne.
      rewrite (live_insert_ne _ _ _ _ _ (free_calls st)); [apply live_eta|].
      intros ->. now apply Hne.
    + intros b' [= <-]. apply live_release.
  - exists st. rewrite app_nil_r. repeat split. discriminate.
Qed.

Lemma construct_raii (M : memory_t) (body : comp world unit) (st st' : backend)
    (v : vector) :
  well_behaved M body ->
  construct M body st = Normal v st' ->
  free_calls st' = free_calls st /\
  exists st'',
    destroy (World v st') = Normal tt (World v st'') /\
    free_calls st'' =
      free_calls st ++
        match get (data_ v) with
        | Some p => [(get_deleter (data_ v), Some p)]
        | None => []
        end /\
    (forall b, live st'' b = live st b).
Proof.
  intros Hbody. specialize (Hbody (World (vector_default M) st)).
  unfold construct.
  destruct (body _) as [[] w1|e w1| |]; try discriminate.
  2:{ destruct (destroy w1) as [[] ?|? ?| |]; discriminate. }
  intros [= <- <-]. destruct Hbody as ((Hd & Hp & Hf & Hl) & Hrel).
  cbn [this cuda data_ get get_deleter vector_default] in *.
  assert (Hcalls : free_calls (cuda w1) = free_calls st).
  { destruct Hf as [?|[Hnn _]]; [assumption|contradiction]. }
  split; [exact Hcalls|].
  destruct (destroy_releasable (this w1) (cuda w1) (Hrel I eq_refl))
    as (st'' & Hdes & Hfc & Hother & Hown).
  exists st''. split; [exact Hdes|]. rewrite Hfc, Hcalls.
  split; [reflexivity|].
  intros b. destruct (decide (storage_block (this w1) = Some b)) as [Hb|Hb].
  - rewrite (Hown b Hb). unfold storage_block in Hb.
    destruct Hp as [Hp|Hp]; rewrite Hp in Hb; [discriminate|].
    injection Hb as <-. unfold live.
    now rewrite lookup_ge_None_2 by lia.
  - rewrite (Hother b Hb). apply Hl; [discriminate|exact Hb].
Qed.

(** When the body of a constructor throws, the object is destroyed: no
    block is left behind. *)
Lemma construct_throws (M : memory_t) (body : comp world unit)
    (st st' : backend) (e : exception) :
  well_behaved M body ->
  construct M body st = Raised e st' ->
  (e = AllocationFailure /\ st' = st \/ e = BackendOperationFailure) /\
  (forall b, live st' b = live st b).
Proof.
  intros Hbody. specialize (Hbody (World (vector_default M) st)).
  unfold construct.
  destruct (body _) as [[] w1|e1 w1| |]; try discriminate.
  destruct Hbody as ((Hd & Hp & Hf & Hl) & Hrel & He).
  cbn [this cuda data_ get get_deleter vector_default] in *.
  destruct (destroy_releasable (this w1) (cuda w1) (Hrel I eq_refl))
    as (st'' & Hdes & Hfc & Hother & Hown).
  replace w1 with (World (this w1) (cuda w1)) by now destruct w1.
  rewrite Hdes. cbn [cuda]. intros [= <- <-]. split.
  - destruct He as [[-> ->]| ->]; [left|now right].
    split; [reflexivity|].
    revert Hdes. unfold destroy, bind, gets, ret.
    cbn [this cuda data_ get vector_default]. now intros [= <-].
  - intros b.
    destruct (decide (storage_block (this w1) = Some b)) as [Hb|Hb].
    + rewrite (Hown b Hb). unfold storage_block in Hb.
      destruct Hp as [Hp|Hp]; rewrite Hp in Hb; [discriminate|].
      injection Hb as <-. unfold live.
      now rewrite lookup_ge_None_2 by lia.
    + rewrite (Hother b Hb). apply Hl; [discriminate|exact Hb].
Qed.

(** X8.  A vector that a constructor returns can be destroyed, and its
    construction followed by its destruction leaves every block of the
    store, live or not, as it was before: the constructor calls [free]
    not at all, the destructor calls it once, by the deleter on the
    storage, when there is a storage, and not at all when there is
    none. *)
Theorem new_destroy (M : memory_t) (c : constructor) (st st' : backend)
    (v : vector) :
  new sizeof_T grants junk faults M c st = Normal v st' ->
  free_calls st' = free_calls st /\
  exists st'',
    destroy (World v st') = Normal tt (World v st'') /\
    free_calls st'' =
      free_calls st ++
        match get (data_ v) with
        | Some p => [(get_deleter (data_ v), Some p)]
        | None => []
        end /\
    (forall b, live st'' b = live st b).
Proof.
  destruct c as [|n|elts|src n|v0]; cbn [new].
  - intros [= <- <-]. split; [reflexivity|].
    exists st. rewrite app_nil_r. repeat split.
  - apply construct_raii, resize_well_behaved.
  - apply construct_raii, initializer_list_well_behaved.
  - apply construct_raii, assign_well_behaved.
  - apply construct_raii, assign_well_behaved.
Qed.

(** X9.  When a constructor throws, then either it throws the allocation
    failure and the store is exactly as it was, or it throws the backend
    failure; and in either case no block is left behind: every block of
    the store, live or not, is as it was before the call. *)
Theorem new_throws (M : memory_t) (c : constructor) (st st' : backend)
    (e : exception) :
  new sizeof_T grants junk faults M c st = Raised e st' ->
  (e = AllocationFailure /\ st' = st \/ e = BackendOperationFailure) /\
  (forall b, live st' b = live st b).
Proof.
  destruct c as [|n|elts|src n|v0]; cbn [new].
  - discriminate.
  - apply construct_throws, resize_well_behaved.
  - apply construct_throws, initializer_list_well_behaved.
  - apply construct_throws, assign_well_behaved.
  - apply construct_throws, assign_well_behaved.
Qed.

End Construction.

Section Copy.

Variable sizeof_T : Z.
Variable faults : pointer -> pointer -> Z -> backend -> option (list byte).
Hypothesis sizeof_pos : 0 < sizeof_T.

(** X13.  [copy(begin, end, it)] on a readable range of [k] elements and
    a destination with room for them that the range does not overlap:
    it returns with the destination holding the bytes the range held, or
    it throws the backend failure, which it does only when the backend
    fails to carry out the copy; either way it calls no [free] and
    changes no block but the destination's, and it is never undefined.
    On an empty range it changes nothing, whatever [it] is. *)
Theorem copy_spec (b bd : nat) (o od k : Z) (st : backend)
    (data : list byte) (blkd : block) :
  0 <= k -> k * sizeof_T <= SIZE_MAX ->
  load st (Some (Ptr b o)) (k * sizeof_T) = Some data ->
  live st bd = Some blkd ->
  in_bounds blkd od (k * sizeof_T) ->
  overlaps (Some (Ptr bd od)) (Some (Ptr b o)) (k * sizeof_T) = false ->
  (k = 0 ->
   forall it, copy sizeof_T faults (Some (Ptr b o)) (Some (Ptr b o)) it st
              = Normal tt st) /\
  match copy sizeof_T faults (Some (Ptr b o))
             (Some (Ptr b (o + k * sizeof_T))) (Some (Ptr bd od)) st with
  | Normal _ st' =>
      load st' (Some (Ptr bd od)) (k * sizeof_T) = Some data /\
      free_calls st' = free_calls st /\
      (forall b', b' <> bd -> live st' b' = live st b')
  | Raised e st' =>
      e = BackendOperationFailure /\
      faults (Some (Ptr bd od)) (Some (Ptr b o)) (k * sizeof_T) st <> None /\
      free_calls st' = free_calls st /\
      (forall b', b' <> bd -> live st' b' = live st b')
  | Aborted | Undefined => False
  end /\
  (faults (Some (Ptr bd od)) (Some (Ptr b o)) (k * sizeof_T) st = None ->
   exists st',
     copy sizeof_T faults (Some (Ptr b o))
          (Some (Ptr b (o + k * sizeof_T))) (Some (Ptr bd od)) st
       = Normal tt st').
Proof.
  intros Hk Hfit Hload Hlive Hin Hov.
  assert (Hbytes : forall o2, o2 = o + k * sizeof_T ->
            size_t (sizeof_T * size_t ((o2 - o) / sizeof_T)) = k * sizeof_T).
  { intros o2 ->. replace (o + k * sizeof_T - o) with (k * sizeof_T) by lia.
    rewrite Z.div_mul by lia.
    rewrite (size_t_small k) by (unfold is_size_t; nia).
    rewrite Z.mul_comm. apply size_t_small. unfold is_size_t. nia. }
  split.
  { intros -> it. unfold copy. rewrite decide_True by reflexivity.
    rewrite (Hbytes o) by lia. reflexivity. }
  unfold copy. rewrite decide_True by reflexivity.
  rewrite (Hbytes _ eq_refl).
  pose proof (load_length _ _ _ _ Hload) as Hlen.
  destruct (decide (k * sizeof_T = 0)) as [Hz|Hnz].
  - unfold memcpy. rewrite decide_True by assumption.
    split; [|eauto]. split; [|auto].
    rewrite Hz in *. destruct data; [|discriminate].
    unfold load. rewrite Hlive.
    rewrite decide_True by assumption. reflexivity.
  - assert (Hother : forall found st',
              store st (Some (Ptr bd od)) found = Some st' ->
              free_calls st' = free_calls st /\
              (forall b', b' <> bd -> live st' b' = live st b')).
    { intros found st' Hst. split; [eapply store_free_calls; eauto|].
      intros b' Hne. eapply store_other; [exact Hst|].
      intros o' [= -> _]. now apply Hne. }
    pose proof (memcpy_spec faults bd od blkd (Some (Ptr b o))
                  (k * sizeof_T) st data Hnz Hlive Hin Hload Hov) as Hc.
    destruct (memcpy faults _ _ _ _) as [[] st'|e st'| |];
      try contradiction.
    + destruct Hc as (_ & Hst & Hld). split; [|eauto].
      split; [exact Hld|]. eapply Hother; eauto.
    + destruct Hc as (-> & found & Hf & Hst). split.
      * split; [reflexivity|]. split; [now rewrite Hf|].
        eapply Hother; eauto.
      * intros Hnone. rewrite Hnone in Hf. discriminate.
Qed.

End Copy.

Section SharedLife.

Variable sizeof_T : Z.
Variable grants : memory_t -> Z -> backend -> bool.
Variable junk : nat -> nat -> byte.
Variable faults : pointer -> pointer -> Z -> backend -> option (list byte).

(** Copies and drops keep the count of the control block equal to the
    number of references held, leave the array alone while one is held
    and release it with the last, and touch no other block. *)
Lemma run_alive (M : memory_t) (b c : nat) (blk : block)
    (evs : list event) :
  forall (held : list shared_ptr) (w : shared_world),
    held <> [] ->
    Forall (fun r => r = SharedPtr (Some (Ptr b 0)) c) held ->
    controls w !! c = Some (ControlBlock (Some (Ptr b 0)) M (length held)) ->
    live (sp_cuda w) b = Some blk -> owner blk = M ->
    well_formed evs (length held) = true ->
    exists held' w',
      run evs held w = Normal held' w' /\
      controls w' !! c
        = Some (ControlBlock (Some (Ptr b 0)) M (length held')) /\
      live (sp_cuda w') b
        = match held' with [] => None | _ :: _ => Some blk end /\
      (forall b', b' <> b -> live (sp_cuda w') b' = live (sp_cuda w) b').
Proof.
  induction evs as [|e evs IH]; intros held w Hne Hall Hctl Hlive Hown Hwf.
  - exists held, w. split; [reflexivity|]. split; [exact Hctl|].
    split; [|auto]. destruct held; [contradiction|exact Hlive].
  - pose proof (lookup_lt_Some _ _ _ Hctl) as Hc.
    destruct e as [i|i]; cbn [well_formed] in Hwf;
      apply andb_prop in Hwf as [Hi Hwf]; apply Nat.ltb_lt in Hi;
      destruct (lookup_lt_is_Some_2 held i Hi) as [r Hr];
      pose proof (Forall_lookup_1 _ _ _ _ Hall Hr) as ->;
      cbn [run step]; rewrite Hr; unfold bind.
    + unfold shared_ptr_copy. cbn [sp_control]. rewrite Hctl.
      destruct (length held) as [|k] eqn:Hlen; [lia|].
      destruct (IH (held ++ [SharedPtr (Some (Ptr b 0)) c])
                  (SharedWorld
                     (<[c := ControlBlock (Some (Ptr b 0)) M (S (S k))]>
                        (controls w)) (sp_cuda w)))
        as (held' & w' & Hrun & Hctl' & Hlive' & Hother).
      * now destruct held.
      * apply Forall_app_2; [assumption|now constructor].
      * cbn [controls]. rewrite list_lookup_insert_eq by assumption.
        rewrite length_app, Hlen. simpl. do 3 f_equal. lia.
      * exact Hlive.
      * exact Hown.
      * rewrite length_app, Hlen. simpl.
        now replace (k + 1)%nat with (S k) by lia.
      * exists held', w'. auto.
    + unfold shared_ptr_drop. cbn [sp_control]. rewrite Hctl.
      destruct (length held) as [|k] eqn:Hlen; [lia|].
      assert (Hdel : length (delete i held) = k).
      { rewrite length_delete by eauto. lia. }
      destruct k as [|k].
      * unfold on_sp_cuda, zoom, memory_free. cbn [sp_cuda controls].
        rewrite Hlive, decide_True by auto.
        destruct (delete i held); [|discriminate].
        cbn [pred] in Hwf. apply well_formed_nobody in Hwf as ->.
        eexists [], _. split; [reflexivity|]. cbn [controls sp_cuda length].
        split; [now rewrite list_lookup_insert_eq by assumption|].
        split; [apply live_release|].
        intros b' Hb'.
        rewrite (live_insert_ne _ _ _ _ _ (free_calls (sp_cuda w)))
          by auto.
        apply live_eta.
      * destruct (IH (delete i held)
                    (SharedWorld
                       (<[c := ControlBlock (Some (Ptr b 0)) M (S k)]>
                          (controls w)) (sp_cuda w)))
          as (held' & w' & Hrun & Hctl' & Hlive' & Hother).
        -- intros E. now rewrite E in Hdel.
        -- now apply Forall_delete.
        -- cbn [controls]. rewrite list_lookup_insert_eq by assumption.
           now rewrite Hdel.
        -- exact Hlive.
        -- exact Hown.
        -- now rewrite Hdel.
        -- exists held', w'. auto.
Qed.

(** X14.  After [make_shared<T, M>(n)] has returned, and after any
    program of copies and drops of references to the array: the use count
    of the control block is the number of references held; as long as one
    is held the array is live, with the policy and the bytes it was
    handed out with; once none is held it has been released; and no other
    block has changed. *)
Theorem make_shared_alive (M : memory_t) (n : Z) (w0 w1 : shared_world)
    (r : shared_ptr) (evs : list event) :
  make_shared sizeof_T grants junk M n w0 = Normal r w1 ->
  well_formed evs 1 = true ->
  exists b held w2,
    sp_get r = Some (Ptr b 0) /\
    run evs [r] w1 = Normal held w2 /\
    (exists cb, controls w2 !! sp_control r = Some cb /\
                use_count cb = length held /\ deleter cb = M) /\
    live (sp_cuda w2) b =
      match held with
      | [] => None
      | _ :: _ =>
          Some (Block M (uninitialised junk b (size_t (n * sizeof_T))))
      end /\
    (forall b', b' <> b -> live (sp_cuda w2) b' = live (sp_cuda w0) b').
Proof.
  unfold make_shared, bind, on_sp_cuda, zoom, allocate, shared_ptr_of.
  pose proof (memory_allocate_outcome grants junk M (size_t (n * sizeof_T))
                (sp_cuda w0)) as Ha.
  destruct (memory_allocate _ _ _ _ _) as [p st1|e st1| |];
    try discriminate.
  destruct Ha as (-> & _ & _ & Hfresh & Hother).
  cbn [controls sp_cuda]. intros [= <- <-] Hwf. cbn [sp_get sp_control].
  set (b := length (blocks (sp_cuda w0))) in *.
  set (c := length (controls w0)).
  match goal with |- context [run evs _ ?w] => set (w1 := w) end.
  destruct (run_alive M b c
              (Block M (uninitialised junk b (size_t (n * sizeof_T))))
              evs [SharedPtr (Some (Ptr b 0)) c] w1)
    as (held & w2 & Hrun & Hctl & Hlive & Hoth).
  - discriminate.
  - now constructor.
  - subst w1 c. cbn [controls length].
    now rewrite lookup_app_r, Nat.sub_diag by lia.
  - exact Hfresh.
  - reflexivity.
  - exact Hwf.
  - exists b, held, w2. split; [reflexivity|]. split; [exact Hrun|].
    split; [eexists; split; [exact Hctl|split; reflexivity]|].
    split; [exact Hlive|].
    intros b' Hb'. rewrite (Hoth b' Hb'). subst w1. cbn [sp_cuda].
    now apply Hother.
Qed.

End SharedLife.

Section Dispatch.

Import Engine.

(** X15.  Over any two index sequences, [make_ab_x_kernel] on sequences
    never indexes the table out of bounds: it returns the kernel that [f]
    builds from the member of the first sequence at position [AB] and the
    member of the second at position [X] when both positions exist, and
    throws [parameters_exceed_max_am] when one does not. *)
Theorem make_ab_x_kernel_seq_total LMAX XMAX kernel_t
    (f : Z -> Z -> Kernel kernel_t) (AB X : Z) (ABs Xs : list Z) :
  0 <= AB -> 0 <= X ->
  make_ab_x_kernel_seq LMAX XMAX kernel_t f AB X ABs Xs =
    match ABs !! Z.to_nat AB, Xs !! Z.to_nat X with
    | Some a, Some x => Normal (f a x) tt
    | _, _ =>
        Raised (make_parameters_exceed_max_am LMAX XMAX (int AB) (int X)) tt
    end.
Proof.
  intros HAB HX. unfold make_ab_x_kernel_seq, make_array, Factory.
  rewrite !list_lookup_fmap.
  destruct (Z.ltb_spec AB (Z.of_nat (length ABs))) as [Ha|Ha].
  - destruct (lookup_lt_is_Some_2 ABs (Z.to_nat AB) ltac:(lia)) as [a ->].
    cbn [fmap option_fmap option_map andb]. rewrite list_lookup_fmap.
    destruct (Z.ltb_spec X (Z.of_nat (length Xs))) as [Hx|Hx].
    + destruct (lookup_lt_is_Some_2 Xs (Z.to_nat X) ltac:(lia)) as [x ->].
      reflexivity.
    + now rewrite (lookup_ge_None_2 Xs) by lia.
  - rewrite (lookup_ge_None_2 ABs) by lia. reflexivity.
Qed.

End Dispatch.

(** ** The further properties at concrete vectors *)

Ltac prove_valid :=
  unfold valid, well_typed, invariant, is_size_t, owns_storage, SIZE_MAX;
  cbn; intuition (try lia; try discriminate).

Lemma call_throws_unchanged_witness :
  (exists e w',
     call 1 true grant_none zeroes no_fault host_memory_t (call_resize 5) full
       = Raised e w' /\
     ((e = AllocationFailure \/ e = capacity_exceeded) /\ w' = full \/
      e = BackendOperationFailure) /\
     footprint full w') /\
  (exists e w',
     call 1 true grant_all zeroes all_fault host_memory_t
          (call_assign (Some (Ptr 1 0)) 1) roomy = Raised e w' /\
     ((e = AllocationFailure \/ e = capacity_exceeded) /\ w' = roomy \/
      e = BackendOperationFailure) /\
     footprint roomy w').
Proof.
  split.
  - eexists _, _. split; [reflexivity|].
    apply (call_throws_unchanged 1 true grant_none zeroes no_fault
             host_memory_t (call_resize 5) full).
    reflexivity.
  - eexists _, _. split; [reflexivity|].
    apply (call_throws_unchanged 1 true grant_all zeroes all_fault
             host_memory_t (call_assign (Some (Ptr 1 0)) 1) roomy).
    reflexivity.
Defined.

Lemma call_frame_witness :
  exists w',
    call 1 true grant_all zeroes no_fault host_memory_t (call_assign_zero 5) roomy
      = Normal tt w' /\
    footprint roomy w' /\
    live (cuda w') 1 = Some (Block device_memory_t [x07]).
Proof.
  eexists. split; [reflexivity|].
  destruct (call_frame 1 true grant_all zeroes no_fault host_memory_t
              (call_assign_zero 5) roomy _ eq_refl) as [Hf Hl].
  split; [exact Hf|].
  apply (Hl 1%nat (Block device_memory_t [x07])); [reflexivity|discriminate].
Defined.

Lemma valid_preserved_witness :
  valid 1 host_memory_t (cuda roomy) (this roomy) /\
  exists w',
    call 1 true grant_all zeroes no_fault host_memory_t (call_reserve 7) roomy
      = Normal tt w' /\
    valid 1 host_memory_t (cuda w') (this w').
Proof.
  assert (Hv : valid 1 host_memory_t (cuda roomy) (this roomy))
    by prove_valid.
  split; [exact Hv|]. eexists. split; [reflexivity|].
  apply (valid_preserved 1 true grant_all zeroes no_fault ltac:(lia)
           host_memory_t
           (call_reserve 7) roomy Hv).
  unfold method_fits, SIZE_MAX. lia.
Defined.


Lemma push_back_all_spec_witness :
  (exists st',
     push_back_all 1 [[x0d]; [x0e]] roomy
       = Normal tt (World (set_size 3 (this roomy)) st') /\
     elements 1 st' (Some (Ptr 0 0)) 3 = Some [x0a; x0d; x0e]) /\
  (exists st',
     push_back_all 1 [[x0d]; [x0e]; [x0f]] roomy
       = Raised capacity_exceeded (World (set_size 3 (this roomy)) st') /\
     elements 1 st' (Some (Ptr 0 0)) 3 = Some [x0a; x0d; x0e]).
Proof.
  split.
  - destruct (push_back_all_spec 1 ltac:(lia)
                [[x0d]; [x0e]] roomy) as (held & Hh & Hfit & _);
      [prove_valid|repeat constructor|].
    injection Hh as <-. apply Hfit. cbn. lia.
  - destruct (push_back_all_spec 1 ltac:(lia)
                [[x0d]; [x0e]; [x0f]] roomy) as (held & Hh & _ & Hfull);
      [prove_valid|repeat constructor|].
    injection Hh as <-. apply Hfull. cbn. lia.
Defined.



Lemma new_destroy_witness :
  exists v st',
    new 4 grant_all zeroes no_fault device_memory_t (new_of_size 3) (cuda roomy)
      = Normal v st' /\
    free_calls st' = free_calls (cuda roomy) /\
    exists st'',
      destroy (World v st') = Normal tt (World v st'') /\
      free_calls st'' = [(device_memory_t, Some (Ptr 2 0))] /\
      (forall b, live st'' b = live (cuda roomy) b).
Proof.
  eexists _, _. split; [reflexivity|].
  apply (new_destroy 4 grant_all zeroes no_fault device_memory_t
           (new_of_size 3)
           (cuda roomy)).
  reflexivity.
Defined.

Lemma new_throws_witness :
  (exists e st',
     new 4 grant_none zeroes no_fault device_memory_t
         (new_of_vector (this roomy)) (cuda roomy) = Raised e st' /\
     (e = AllocationFailure /\ st' = cuda roomy \/
      e = BackendOperationFailure) /\
     (forall b, live st' b = live (cuda roomy) b)) /\
  (exists e st',
     new 1 grant_all zeroes all_fault device_memory_t
         (new_of_vector (this roomy)) (cuda roomy) = Raised e st' /\
     (e = AllocationFailure /\ st' = cuda roomy \/
      e = BackendOperationFailure) /\
     (forall b, live st' b = live (cuda roomy) b)).
Proof.
  split.
  - eexists _, _. split; [reflexivity|].
    apply (new_throws 4 grant_none zeroes no_fault device_memory_t
             (new_of_vector (this roomy)) (cuda roomy)).
    reflexivity.
  - eexists _, _. split; [reflexivity|].
    apply (new_throws 1 grant_all zeroes all_fault device_memory_t
             (new_of_vector (this roomy)) (cuda roomy)).
    reflexivity.
Defined.

Lemma initializer_list_roundtrip_witness :
  exists v st',
    vector_of_initializer_list 2 grant_all zeroes
      [[x01; x02]; [x03; x04]; [x05; x06]] (Backend [] []) = Normal v st' /\
    size_ v = 3 /\
    valid 2 host_memory_t st' v /\
    elements 2 st' (get (data_ v)) (size_ v)
      = Some [x01; x02; x03; x04; x05; x06] /\
    ([[x01; x02]; [x03; x04]; [x05; x06]] = [] ->
     v = vector_default host_memory_t /\ st' = Backend [] []).
Proof.
  apply (initializer_list_roundtrip 2 grant_all zeroes ltac:(lia)
           [[x01; x02]; [x03; x04]; [x05; x06]] (Backend [] []));
    [repeat constructor|unfold SIZE_MAX; cbn; lia|reflexivity].
Defined.

Lemma assign_range_spec_witness :
  assign_range 1 true grant_all zeroes no_fault host_memory_t
    (Some (Ptr 1 0)) (Some (Ptr 1 1)) roomy =
  assign 1 grant_all zeroes no_fault host_memory_t (Some (Ptr 1 0)) 1 roomy /\
  assign_range 1 true grant_all zeroes no_fault host_memory_t
    (Some (Ptr 1 0)) (Some (Ptr 1 0)) roomy =
  Normal tt (World (set_size 0 (this roomy)) (cuda roomy)) /\
  assign_range 1 false grant_all zeroes no_fault host_memory_t
    (Some (Ptr 1 1)) (Some (Ptr 1 0)) roomy = Aborted.
Proof.
  destruct (assign_range_spec 1 true grant_all zeroes no_fault ltac:(lia)
              host_memory_t 1%nat 0 roomy) as (Hk & Hempty & _).
  destruct (assign_range_spec 1 false grant_all zeroes no_fault ltac:(lia)
              host_memory_t 1%nat 1 roomy) as (_ & _ & Hrev).
  split; [|split].
  - apply (Hk 1); [lia|unfold SIZE_MAX; lia].
  - apply Hempty. cbn. lia.
  - apply (Hrev 0); [lia|reflexivity].
Defined.


Lemma copy_spec_witness :
  (exists st',
     copy 1 no_fault (Some (Ptr 0 1)) (Some (Ptr 0 3)) (Some (Ptr 1 0))
          (Backend [Some (Block host_memory_t [x0a; x0b; x0c]);
                    Some (Block device_memory_t [x07; x08])] [])
       = Normal tt st' /\
     load st' (Some (Ptr 1 0)) 2 = Some [x0b; x0c]) /\
  (exists e st',
     copy 1 all_fault (Some (Ptr 0 1)) (Some (Ptr 0 3)) (Some (Ptr 1 0))
          (Backend [Some (Block host_memory_t [x0a; x0b; x0c]);
                    Some (Block device_memory_t [x07; x08])] [])
       = Raised e st' /\
     e = BackendOperationFailure /\
     live st' 0 = Some (Block host_memory_t [x0a; x0b; x0c])).
Proof.
  set (st := Backend [Some (Block host_memory_t [x0a; x0b; x0c]);
                      Some (Block device_memory_t [x07; x08])] []).
  split.
  - destruct (copy_spec 1 no_fault ltac:(lia) 0%nat 1%nat 1 0 2 st
                [x0b; x0c] (Block device_memory_t [x07; x08]))
      as (_ & Hrun & _);
      [lia|unfold SIZE_MAX; lia|reflexivity|reflexivity
      |unfold in_bounds; cbn; lia|reflexivity|].
    eexists. split; [reflexivity|]. apply Hrun.
  - destruct (copy_spec 1 all_fault ltac:(lia) 0%nat 1%nat 1 0 2 st
                [x0b; x0c] (Block device_memory_t [x07; x08]))
      as (_ & Hrun & _);
      [lia|unfold SIZE_MAX; lia|reflexivity|reflexivity
      |unfold in_bounds; cbn; lia|reflexivity|].
    eexists _, _. split; [reflexivity|].
    destruct Hrun as (He & _ & _ & Hl). split; [exact He|].
    rewrite Hl by discriminate. reflexivity.
Defined.

Lemma make_shared_alive_witness :
  exists r w1 held w2,
    make_shared 8 grant_all zeroes device_memory_t 1
      (SharedWorld [] (Backend [] [])) = Normal r w1 /\
    run [ev_copy 0; ev_drop 0]%nat [r] w1 = Normal held w2 /\
    (exists cb, controls w2 !! sp_control r = Some cb /\
                use_count cb = length held /\ deleter cb = device_memory_t) /\
    live (sp_cuda w2) 0 = Some (Block device_memory_t (replicate 8 x00)).
Proof.
  eexists _, _.
  destruct (make_shared_alive 8 grant_all zeroes device_memory_t 1
              (SharedWorld [] (Backend [] [])) _ _
              [ev_copy 0; ev_drop 0]%nat eq_refl eq_refl)
    as (b & held & w2 & Hb & Hrun & Hcb & Hlive & _).
  injection Hb as <-.
  exists held, w2. split; [reflexivity|]. split; [exact Hrun|].
  split; [exact Hcb|].
  rewrite Hlive. vm_compute in Hrun. injection Hrun as <- _. reflexivity.
Defined.

Lemma make_ab_x_kernel_seq_total_witness :
  Engine.make_ab_x_kernel_seq 2 3 Z (fun a x => Some (10 * a + x)) 1 0
    [7; 8; 9] [4; 5] = Normal (Some 84) tt /\
  Engine.make_ab_x_kernel_seq 2 3 Z (fun a x => Some (10 * a + x)) 1 2
    [7; 8; 9] [4; 5] =
  Raised (Engine.make_parameters_exceed_max_am 2 3 1 2) tt.
Proof.
  split.
  - apply (make_ab_x_kernel_seq_total 2 3 Z (fun a x => Some (10 * a + x))
             1 0 [7; 8; 9] [4; 5]); lia.
  - apply (make_ab_x_kernel_seq_total 2 3 Z (fun a x => Some (10 * a + x))
             1 2 [7; 8; 9] [4; 5]); lia.
Defined.
